(** * Lock-free ring buffers: the SPSC queue ([queue/queue.h]) and the
      broadcast queue ([broadcast/broadcast.h])

    The C functions are embedded as functions on [Z].  Every unsigned C
    operation is written with its wrap-around: [wrap w x] is the value of
    [x] in an unsigned type of [w] bits. *)

From Stdlib Require Import ZArith Lia List Bool.
Import ListNotations.
Local Open Scope Z_scope.

(** ** Unsigned machine arithmetic *)

Definition wrap (w x : Z) : Z := x mod 2 ^ w.

(** [a + b], [a - b], [a * b] and [- a] in an unsigned type of [w] bits. *)
Definition addw (w a b : Z) : Z := wrap w (a + b).
Definition subw (w a b : Z) : Z := wrap w (a - b).
Definition mulw (w a b : Z) : Z := wrap w (a * b).
Definition negw (w a : Z) : Z := wrap w (- a).
(** [(T)1 << n] in an unsigned type [T] of [w] bits. *)
Definition shlw (w a n : Z) : Z := wrap w (Z.shiftl a n).

(** ** The SPSC queue, [queue/queue.h] *)

Module SPSC.

(** [typedef struct { size_t head, tail; } Queue;] *)
Record Queue : Set := mkQueue { head : Z; tail : Z }.

Section SizeT.

(** Width of [size_t] in bits. *)
Variable w : Z.

(** [queue_pop]: returns the index, and the value stored in [*count]. *)
Definition queue_pop (q : Queue) (cap_lg2 : Z) : Z * Z :=
  let tail := tail q in
  let mask := subw w (shlw w 1 cap_lg2) 1 in
  let cond :=
    Z.land (subw w (Z.shiftr tail cap_lg2) (Z.shiftr (head q) cap_lg2)) 1 in
  let count :=
    subw w (subw w tail (head q)) (mulw w (Z.land tail mask) cond) in
  (Z.land (head q) mask, count).

(** [queue_commit_pop] *)
Definition queue_commit_pop (q : Queue) (count : Z) : Queue :=
  mkQueue (addw w (head q) count) (tail q).

(** [queue_push]: returns the index, and the value stored in [*count]. *)
Definition queue_push (q : Queue) (cap_lg2 : Z) : Z * Z :=
  let head := head q in
  let mask := subw w (shlw w 1 cap_lg2) 1 in
  let cond :=
    Z.land (subw w (Z.shiftr (tail q) cap_lg2) (Z.shiftr head cap_lg2)) 1 in
  let count :=
    subw w (subw w (addw w mask 1) (subw w (tail q) head))
           (mulw w (Z.land head mask) (subw w 1 cond)) in
  (Z.land (tail q) mask, count).

(** [queue_commit_push] *)
Definition queue_commit_push (q : Queue) (count : Z) : Queue :=
  mkQueue (head q) (addw w (tail q) count).

(** A queue value is a pair of [size_t] counters. *)
Definition wf_queue (q : Queue) : Prop :=
  0 <= head q < 2 ^ w /\ 0 <= tail q < 2 ^ w.

(** Number of stored elements: [tail - head] in [size_t]. *)
Definition used (q : Queue) : Z := subw w (tail q) (head q).

(** The same queue with both counters advanced by [d]. *)
Definition shift_queue (d : Z) (q : Queue) : Queue :=
  mkQueue (addw w (head q) d) (addw w (tail q) d).

(** *** Sequences of calls

    The producer asks for a slice with [queue_push] and commits [n] of the
    cells it was given; the consumer does the same with [queue_pop]. *)

Inductive Op : Set :=
| produce (n : Z)
| consume (n : Z).

(** One slice-and-commit; [None] when [n] is not between 0 and the count
    just returned. *)
Definition step (cap_lg2 : Z) (o : Op) (q : Queue) : option Queue :=
  match o with
  | produce n =>
      if (0 <=? n) && (n <=? snd (queue_push q cap_lg2))
      then Some (queue_commit_push q n) else None
  | consume n =>
      if (0 <=? n) && (n <=? snd (queue_pop q cap_lg2))
      then Some (queue_commit_pop q n) else None
  end.

Fixpoint steps (cap_lg2 : Z) (os : list Op) (q : Queue) : option Queue :=
  match os with
  | [] => Some q
  | o :: os' =>
      match step cap_lg2 o q with
      | Some q' => steps cap_lg2 os' q'
      | None => None
      end
  end.

(** Cell [i] of the array belongs to the run [(index, count)]. *)
Definition in_run (r : Z * Z) (i : Z) : Prop :=
  fst r <= i < fst r + snd r.

End SizeT.

End SPSC.

(** ** The broadcast queue, [broadcast/broadcast.h] *)

Module Brdct.

(** The two builds selected by the preprocessor.  [word_bits] is the width
    of [brdct_t]; [size_t] has the same width on the targets modelled here
    (LP64 for the 64-bit layout, ILP32 for the 32-bit one).  [reader_bits]
    is the width of the [Reader] typedef. *)
Record Variant : Set := mkVariant {
  BRDCT_RESIZE : Z;
  word_bits : Z;
  reader_bits : Z
}.

(** [ATOMIC_LLONG_LOCK_FREE == 2]: [uint_fast64_t] word, [uint32_t] reader. *)
Definition wide : Variant := mkVariant 0 64 32.
(** Otherwise: [uint_fast32_t] word, [uint16_t] reader. *)
Definition narrow : Variant := mkVariant 1 32 16.

(** Widths of the bit-fields, as declared in the [Broadcast] union. *)
Definition tail_bits (v : Variant) : Z :=
  Z.shiftr 33 (BRDCT_RESIZE v) + BRDCT_RESIZE v.
Definition count_bits (v : Variant) : Z := Z.shiftr 15 (BRDCT_RESIZE v).

(** The packed state word, one field per bit-field. *)
Record Broadcast : Set := mkBroadcast {
  tail : Z;
  nreaders : Z;
  ncycled : Z;
  hstate : Z
}.

(** [Broadcast q = {0};] *)
Definition brdct_zero : Broadcast := mkBroadcast 0 0 0 0.

(** [typedef struct { size_t idx[2]; size_t cnt[2]; size_t len; } Slice;] *)
Record Slice : Set := mkSlice {
  idx0 : Z; idx1 : Z;
  cnt0 : Z; cnt1 : Z;
  len : Z
}.

Section Build.

Variable v : Variant.

Let W := word_bits v.
Let R := reader_bits v.

(** The derived head, [(tail & -halflen) - halflen * hstate] in [brdct_t]. *)
Definition derived_head (b : Broadcast) (caplg2 : Z) : Z :=
  let halflen := shlw W 1 (caplg2 - 1) in
  subw W (Z.land (tail b) (negw W halflen)) (mulw W halflen (hstate b)).

(** [brdct_attach_reader]: the returned triple is the [int] result, the
    state word after the call and the value of [*r] after the call ([r] is
    its value before).  Each compare-and-swap loop is modelled by its one
    successful iteration, on the word it read. *)
Definition brdct_attach_reader (brc : Broadcast) (caplg2 : Z) (r : Z)
  : Z * Broadcast * Z :=
  let curr := brc in
  if nreaders curr =? Z.shiftr (Z.shiftl 1 15 - 1) (BRDCT_RESIZE v)
  then (-1, brc, r)
  else
    let new := mkBroadcast (tail curr)
                 (wrap (count_bits v) (nreaders curr + 1))
                 (ncycled curr) (hstate curr) in
    let halflen := shlw W 1 (caplg2 - 1) in
    (0, new,
     wrap R (subw W (Z.land (tail new) (negw W halflen))
                    (mulw W halflen (hstate new)))).

(** [brdct_detach_reader].  [*r >> (caplg2 - 1)] shifts a [Reader]; C
    defines that shift for a count below the width of the operand, so
    [Z.shiftr] is the code's shift for [caplg2 - 1 < reader_bits], and the
    numbered properties that depend on the test are stated in that range
    ([BRDCT_MAX_CAPLG2], 33 and 17, is one above it). *)
Definition brdct_detach_reader (brc : Broadcast) (caplg2 : Z) (r : Z)
  : Broadcast :=
  let curr := brc in
  let new := mkBroadcast (tail curr)
               (wrap (count_bits v) (nreaders curr - 1))
               (ncycled curr) (hstate curr) in
  if negb (hstate new =? 0)
     && (Z.shiftr (tail new) (caplg2 - 1) =? Z.shiftr r (caplg2 - 1))
  then mkBroadcast (tail new) (nreaders new)
         (wrap (count_bits v) (ncycled new - 1)) (hstate new)
  else new.

(** [brdct_reader_slice].  The designated initializer zeroes the fields it
    does not name.  [curr.tail - *r] is taken in the width of [brdct_t]; a
    compiler that evaluates the bit-field [tail] in its own 33 bits gives
    the same value whenever [*r <= curr.tail], which is the case in every
    state the properties below look at.  [*r >> caplg2] shifts a [Reader]:
    [Z.shiftr] is the code's shift for [caplg2 < reader_bits], and the
    numbered properties that depend on which branch is taken are stated in
    that range. *)
Definition brdct_reader_slice (brc : Broadcast) (caplg2 : Z) (r : Z)
  : Slice :=
  let curr := brc in
  let mask := subw W (shlw W 1 caplg2) 1 in
  let s := mkSlice (Z.land r mask) 0 (subw W (tail curr) r) 0 0 in
  let s :=
    if negb (Z.shiftr (tail curr) caplg2 =? Z.shiftr r caplg2)
    then mkSlice (idx0 s) (idx1 s)
           (subw W (cnt0 s) (Z.land (tail curr) mask))
           (Z.land (tail curr) mask) (len s)
    else s in
  mkSlice (idx0 s) (idx1 s) (cnt0 s) (cnt1 s) (addw W (cnt0 s) (cnt1 s)).

(** [brdct_reader_commit]: returns the state word and [*r] after the call.
    Both shifts are of a [Reader], as in [brdct_detach_reader]. *)
Definition brdct_reader_commit (brc : Broadcast) (caplg2 : Z) (r : Z)
    (s : Slice) : Broadcast * Z :=
  let count := subw W (len s) (addw W (cnt0 s) (cnt1 s)) in
  let prev := r in
  let r := wrap R (addw W r count) in
  if Z.shiftr r (caplg2 - 1) =? Z.shiftr prev (caplg2 - 1)
  then (brc, r)
  else
    let curr := brc in
    (mkBroadcast (tail curr) (nreaders curr)
       (wrap (count_bits v) (ncycled curr + 1)) (hstate curr), r).

(** [brdct_writer_slice]: returns the state word after the call and the
    slice. *)
Definition brdct_writer_slice (brc : Broadcast) (caplg2 : Z)
  : Broadcast * Slice :=
  let curr := brc in
  let new :=
    if (nreaders curr =? 0) || (ncycled curr <? nreaders curr)
    then curr
    else mkBroadcast (tail curr) (nreaders curr) 0 0 in
  let halflen := shlw W 1 (caplg2 - 1) in
  let head :=
    subw W (Z.land (tail new) (negw W halflen)) (mulw W halflen (hstate new)) in
  let mask := subw W (shlw W 1 caplg2) 1 in
  let s := mkSlice (Z.land (tail new) mask) 0
             (subw W (addw W mask 1) (subw W (tail new) head)) 0 0 in
  let s :=
    if Z.shiftr (tail new) caplg2 =? Z.shiftr head caplg2
    then mkSlice (idx0 s) (idx1 s)
           (subw W (cnt0 s) (Z.land head mask)) (Z.land head mask) (len s)
    else s in
  let s := mkSlice (idx0 s) (idx1 s) (cnt0 s) (cnt1 s)
             (addw W (cnt0 s) (cnt1 s)) in
  let s :=
    if subw W (addw W (tail new) (len s)) head =? shlw W 1 caplg2
    then
      let s := mkSlice (idx0 s) (idx1 s) (cnt0 s) (cnt1 s)
                 (subw W (len s) 1) in
      if 0 <? cnt1 s
      then mkSlice (idx0 s) (idx1 s) (cnt0 s) (subw W (cnt1 s) 1) (len s)
      else if 0 <? cnt0 s
      then mkSlice (idx0 s) (idx1 s) (subw W (cnt0 s) 1) (cnt1 s) (len s)
      else s
    else s in
  (new, s).

(** [brdct_writer_commit] *)
Definition brdct_writer_commit (brc : Broadcast) (caplg2 : Z) (s : Slice)
  : Broadcast :=
  let count := subw W (len s) (addw W (cnt0 s) (cnt1 s)) in
  let curr := brc in
  let new := mkBroadcast (wrap (tail_bits v) (addw W (tail curr) count))
               (nreaders curr) (ncycled curr) (hstate curr) in
  if negb (Z.shiftr (tail new) (caplg2 - 1)
           =? Z.shiftr (tail curr) (caplg2 - 1))
  then mkBroadcast (tail new) (nreaders new) (ncycled new) 1
  else new.

(** What the caller does to a slice to report that everything was consumed
    or produced: both counts are brought to zero. *)
Definition take_all (s : Slice) : Slice :=
  mkSlice (idx0 s) (idx1 s) 0 0 (len s).

(** *** Sequences of calls

    One writer and any number of readers call the functions above; every
    call acts on the shared word at one point (its successful
    compare-and-swap, or its load), so a run of the queue is a sequence of
    calls.  A reader owns its counter and the slice it was last given; the
    writer owns the slice it was last given. *)

Record ReaderSt : Set := mkReader { pos : Z; held : option Slice }.

Record System : Set := mkSystem {
  word : Broadcast;
  readers : list ReaderSt;
  wheld : option Slice
}.

(** [reader_commit i c0 c1] and [writer_commit c0 c1]: the caller has
    brought [cnt[0]] and [cnt[1]] of the slice it holds down to [c0] and
    [c1] before the call. *)
Inductive Call : Set :=
| attach_reader
| detach_reader (i : nat)
| reader_slice (i : nat)
| reader_commit (i : nat) (c0 c1 : Z)
| writer_slice
| writer_commit (c0 c1 : Z).

Definition set_nth {A : Type} (i : nat) (x : A) (l : list A) : list A :=
  firstn i l ++ x :: skipn (S i) l.

Definition remove_nth {A : Type} (i : nat) (l : list A) : list A :=
  firstn i l ++ skipn (S i) l.

(** The caller may only lower the counts of the slice it holds. *)
Definition lowered (s : Slice) (c0 c1 : Z) : bool :=
  (0 <=? c0) && (c0 <=? cnt0 s) && (0 <=? c1) && (c1 <=? cnt1 s).

(** One call; [None] when it breaks the contract (a reader that is not
    attached, a commit without a slice just returned, a count raised). *)
Definition call (caplg2 : Z) (c : Call) (st : System) : option System :=
  match c with
  | attach_reader =>
      let '(res, b, r) := brdct_attach_reader (word st) caplg2 0 in
      if res =? 0
      then Some (mkSystem b (readers st ++ [mkReader r None]) (wheld st))
      else Some (mkSystem b (readers st) (wheld st))
  | detach_reader i =>
      match nth_error (readers st) i with
      | Some rd =>
          Some (mkSystem (brdct_detach_reader (word st) caplg2 (pos rd))
                  (remove_nth i (readers st)) (wheld st))
      | None => None
      end
  | reader_slice i =>
      match nth_error (readers st) i with
      | Some rd =>
          let s := brdct_reader_slice (word st) caplg2 (pos rd) in
          Some (mkSystem (word st)
                  (set_nth i (mkReader (pos rd) (Some s)) (readers st))
                  (wheld st))
      | None => None
      end
  | reader_commit i c0 c1 =>
      match nth_error (readers st) i with
      | Some (mkReader r (Some s)) =>
          if lowered s c0 c1
          then
            let '(b, r') :=
              brdct_reader_commit (word st) caplg2 r
                (mkSlice (idx0 s) (idx1 s) c0 c1 (len s)) in
            Some (mkSystem b (set_nth i (mkReader r' None) (readers st))
                    (wheld st))
          else None
      | _ => None
      end
  | writer_slice =>
      let '(b, s) := brdct_writer_slice (word st) caplg2 in
      Some (mkSystem b (readers st) (Some s))
  | writer_commit c0 c1 =>
      match wheld st with
      | Some s =>
          if lowered s c0 c1
          then Some (mkSystem
                       (brdct_writer_commit (word st) caplg2
                          (mkSlice (idx0 s) (idx1 s) c0 c1 (len s)))
                       (readers st) None)
          else None
      | None => None
      end
  end.

(** A sequence of calls, first call first. *)
Fixpoint run (caplg2 : Z) (cs : list Call) (st : System) : option System :=
  match cs with
  | [] => Some st
  | c :: cs' =>
      match call caplg2 c st with
      | Some st' => run caplg2 cs' st'
      | None => None
      end
  end.

(** The zero-initialized queue, with no reader attached. *)
Definition start : System := mkSystem brdct_zero [] None.

Definition reachable (caplg2 : Z) (st : System) : Prop :=
  exists cs, run caplg2 cs start = Some st.

(** [tail - r < C] for every attached reader, the difference taken in an
    unsigned type of [m] bits. *)
Definition no_overwrite (m caplg2 : Z) (st : System) : Prop :=
  forall rd, In rd (readers st) ->
    subw m (tail (word st)) (pos rd) < 2 ^ caplg2.

(** [ncycled <= nreaders], and [ncycled == 0] when [hstate == 0]. *)
Definition census (b : Broadcast) : Prop :=
  ncycled b <= nreaders b /\ (hstate b = 0 -> ncycled b = 0).

(** *** The regime before the reader counters wrap

    Runs in which [tail] stays below [2^reader_bits], and what holds of
    the states they reach. *)

Inductive reachable_below (caplg2 : Z) : System -> Prop :=
| below_start : reachable_below caplg2 start
| below_call (st : System) (c : Call) (st' : System) :
    reachable_below caplg2 st ->
    call caplg2 c st = Some st' ->
    tail (word st') < 2 ^ reader_bits v ->
    reachable_below caplg2 st'.

(** The same as a check along a sequence of calls. *)
Fixpoint run_below (caplg2 : Z) (cs : list Call) (st : System)
  : option System :=
  match cs with
  | [] => Some st
  | c :: cs' =>
      match call caplg2 c st with
      | Some st' =>
          if tail (word st') <? 2 ^ reader_bits v
          then run_below caplg2 cs' st'
          else None
      | None => None
      end
  end.

(** Start of the half-block of [tail], and the head as an integer. *)
Definition half_start (caplg2 : Z) (b : Broadcast) : Z :=
  tail b - tail b mod 2 ^ (caplg2 - 1).

Definition head_of (caplg2 : Z) (b : Broadcast) : Z :=
  half_start caplg2 b - 2 ^ (caplg2 - 1) * hstate b.

(** Number of readers whose counter is at or past [s]. *)
Fixpoint crossed (s : Z) (l : list ReaderSt) : Z :=
  match l with
  | [] => 0
  | rd :: l' => (if s <=? pos rd then 1 else 0) + crossed s l'
  end.

(** A slice whose counts add up to its length. *)
Definition sums (s : Slice) : Prop :=
  0 <= cnt0 s /\ 0 <= cnt1 s /\ len s = cnt0 s + cnt1 s.

(** A reader between the head and [tail], holding at most what is between
    its counter and [tail]. *)
Definition reader_ok (caplg2 : Z) (b : Broadcast) (rd : ReaderSt) : Prop :=
  head_of caplg2 b <= pos rd <= tail b /\
  forall s, held rd = Some s -> sums s /\ pos rd + len s <= tail b.

Record consistent (caplg2 : Z) (st : System) : Prop := mkConsistent {
  c_tail : 0 <= tail (word st) < 2 ^ reader_bits v;
  c_hstate :
    hstate (word st) = 0 \/
    (hstate (word st) = 1 /\ 2 ^ (caplg2 - 1) <= tail (word st));
  c_nreaders : nreaders (word st) = Z.of_nat (length (readers st));
  c_ceiling : nreaders (word st) < 2 ^ count_bits v;
  c_ncycled :
    ncycled (word st)
    = hstate (word st) * crossed (half_start caplg2 (word st)) (readers st);
  c_readers : Forall (reader_ok caplg2 (word st)) (readers st);
  c_writer :
    forall s, wheld st = Some s ->
      sums s /\
      tail (word st) + len s <= head_of caplg2 (word st) + 2 ^ caplg2 - 1
}.

(** A slice that addresses only cells of the [2^caplg2]-element payload
    array: segments [[idx0, idx0 + cnt0)] and [[0, cnt1)], [len] cells in
    all, never the whole array. *)
Definition in_bounds (caplg2 : Z) (s : Slice) : Prop :=
  0 <= idx0 s /\ 0 <= cnt0 s /\ idx0 s + cnt0 s <= 2 ^ caplg2 /\
  idx1 s = 0 /\ 0 <= cnt1 s < 2 ^ caplg2 /\
  len s = cnt0 s + cnt1 s /\ len s <= 2 ^ caplg2 - 1.

(** Cell [i] of the payload array belongs to the slice: to its first
    segment [[idx0, idx0 + cnt0)] or to its second, [[idx1, idx1 + cnt1)]. *)
Definition in_slice (s : Slice) (i : Z) : Prop :=
  idx0 s <= i < idx0 s + cnt0 s \/ idx1 s <= i < idx1 s + cnt1 s.

End Build.

(** One reader and the writer taking turns, each committing the whole
    slice it was given. *)
Definition round : list Call :=
  [writer_slice; writer_commit 0 0;
   reader_slice 0%nat; reader_commit 0%nat 0 0].

Fixpoint rounds (n : nat) : list Call :=
  match n with
  | O => []
  | S n' => round ++ rounds n'
  end.

(** On a queue of [2^31] cells in the 64-bit layout, four rounds take
    [tail] past [2^32]; the reader is then given a slice again and consumes
    one cell of it ([cnt[0]] lowered by one, from 3221225473). *)
Definition past_reader_wrap : list Call := attach_reader :: rounds 4.

Definition one_more_cell : list Call :=
  past_reader_wrap
  ++ [reader_slice 0%nat; reader_commit 0%nat 3221225472 1073741823].

(** On a queue of [2^10] cells in the 32-bit layout, 128 rounds take [tail]
    past [2^16]. *)
Definition past_reader_wrap_narrow : list Call := attach_reader :: rounds 128.

End Brdct.

(** * Properties *)

(** ** Powers of two, masks and wrap-around *)

Lemma pow2_pos n : 0 <= n -> 0 < 2 ^ n.
Proof. intros; apply Z.pow_pos_nonneg; lia. Qed.

Lemma pow2_split w k : 0 <= k <= w -> 2 ^ w = 2 ^ k * 2 ^ (w - k).
Proof. intros; rewrite <- Z.pow_add_r by lia; f_equal; lia. Qed.

Lemma pow2_double w k : 0 <= k < w -> 2 * 2 ^ k <= 2 ^ w.
Proof.
  intros H. rewrite (pow2_split w k) by lia.
  assert (2 <= 2 ^ (w - k)).
  { change 2 with (2 ^ 1) at 1. apply Z.pow_le_mono_r; lia. }
  pose proof (pow2_pos k). nia.
Qed.

Lemma land_mask x k : 0 <= k -> Z.land x (2 ^ k - 1) = x mod 2 ^ k.
Proof.
  intros Hk. rewrite <- Z.land_ones by exact Hk.
  now rewrite Z.ones_equiv, <- Z.sub_1_r.
Qed.

Lemma land_1 x : Z.land x 1 = x mod 2.
Proof. change 1 with (2 ^ 1 - 1) at 1. now rewrite land_mask by lia. Qed.

Lemma wrap_small w x : 0 <= x < 2 ^ w -> wrap w x = x.
Proof. apply Z.mod_small. Qed.

Lemma wrap_range w x : 0 <= w -> 0 <= wrap w x < 2 ^ w.
Proof. intros; apply Z.mod_pos_bound, pow2_pos; assumption. Qed.

Lemma wrap_unique w x q r :
  0 <= r < 2 ^ w -> x = q * 2 ^ w + r -> wrap w x = r.
Proof.
  intros Hr ->. unfold wrap.
  rewrite Z.add_comm, Z.mod_add by lia. now apply Z.mod_small.
Qed.

Lemma wrap_wrap_le w k x : 0 <= k <= w -> wrap k (wrap w x) = wrap k x.
Proof.
  intros H. unfold wrap. apply Z.mod_mod_divide.
  exists (2 ^ (w - k)). rewrite Z.mul_comm. now apply pow2_split.
Qed.

Lemma wrap_sub_wrap w a b c :
  wrap w (wrap w (a + c) - wrap w (b + c)) = wrap w (a - b).
Proof.
  unfold wrap. rewrite <- Zminus_mod. f_equal. lia.
Qed.

Lemma mask_val w k : 0 <= k < w -> subw w (shlw w 1 k) 1 = 2 ^ k - 1.
Proof.
  intros H. unfold subw, shlw. rewrite Z.shiftl_1_l.
  pose proof (pow2_double w k H). pose proof (pow2_pos k).
  rewrite (wrap_small w (2 ^ k)) by lia. apply wrap_small; lia.
Qed.

(** Two counters of [w] bits that are at most one block of [2^k] apart are
    in the same block or in consecutive ones, and the parity of the
    difference of their block numbers tells which. *)
Section Blocks.

Variables w k h t : Z.
Hypothesis Hk : 0 <= k < w.
Hypothesis Hh : 0 <= h < 2 ^ w.
Hypothesis Ht : 0 <= t < 2 ^ w.
Hypothesis Hd : wrap w (t - h) <= 2 ^ k.

Lemma blocks_cases :
  (h / 2 ^ k = t / 2 ^ k /\ h mod 2 ^ k <= t mod 2 ^ k /\
     wrap w (t - h) = t mod 2 ^ k - h mod 2 ^ k /\
     wrap w (t / 2 ^ k - h / 2 ^ k) mod 2 = 0) \/
  (h / 2 ^ k <> t / 2 ^ k /\ t mod 2 ^ k <= h mod 2 ^ k /\
     wrap w (t - h) = 2 ^ k - h mod 2 ^ k + t mod 2 ^ k /\
     wrap w (t / 2 ^ k - h / 2 ^ k) mod 2 = 1).
Proof.
  pose proof (pow2_pos k ltac:(lia)) as HC.
  pose proof (pow2_pos (w - k - 1) ltac:(lia)) as HB.
  assert (HM : 2 ^ w = 2 ^ k * (2 * 2 ^ (w - k - 1))).
  { rewrite (pow2_split w k) by lia. f_equal.
    rewrite (pow2_split (w - k) 1) by lia. reflexivity. }
  set (C := 2 ^ k) in *. set (B := 2 ^ (w - k - 1)) in *.
  pose proof (Z.div_mod h C ltac:(lia)) as Eh.
  pose proof (Z.div_mod t C ltac:(lia)) as Et.
  pose proof (Z.mod_pos_bound h C HC) as Rh.
  pose proof (Z.mod_pos_bound t C HC) as Rt.
  set (hq := h / C) in *. set (hr := h mod C) in *.
  set (tq := t / C) in *. set (tr := t mod C) in *.
  assert (Hhq : 0 <= hq < 2 * B) by nia.
  assert (Htq : 0 <= tq < 2 * B) by nia.
  destruct (Z_le_gt_dec h t) as [Hle | Hgt].
  - assert (Ed : wrap w (t - h) = t - h) by (apply wrap_small; lia).
    rewrite Ed in *.
    assert (tq = hq \/ tq = hq + 1) as [E | E] by nia.
    + left. repeat split; try nia.
      replace (tq - hq) with 0 by lia. reflexivity.
    + right. repeat split; try nia.
      replace (tq - hq) with 1 by lia.
      rewrite wrap_small; [reflexivity | nia].
  - assert (Ed : wrap w (t - h) = 2 ^ w + t - h).
    { apply (wrap_unique w _ (-1)); lia. }
    rewrite Ed in *.
    assert (hq = 2 * B - 1 /\ tq = 0) as [E1 E2] by nia.
    right. repeat split; try nia.
    rewrite (wrap_unique w _ (-1) (2 ^ w + 1 - 2 * B)); [ | nia | nia].
    replace (2 ^ w + 1 - 2 * B) with (1 + (C * B - B) * 2) by nia.
    now rewrite Z.mod_add by lia.
Qed.

End Blocks.

(** ** The SPSC queue *)

Module SPSCFacts.
Import SPSC.

Section Specs.

Variables w k : Z.
Variable q : Queue.
Hypothesis Hk : 0 <= k < w.
Hypothesis Hq : wf_queue w q.
Hypothesis Hused : used w q <= 2 ^ k.

Let C := 2 ^ k.

Lemma used_range : 0 <= used w q < 2 ^ w.
Proof. apply wrap_range; lia. Qed.

Lemma queue_pop_spec :
  queue_pop w q k = (head q mod C, Z.min (used w q) (C - head q mod C)).
Proof.
  destruct Hq as [Hh Ht]. unfold used, subw in Hused.
  pose proof (pow2_pos k ltac:(lia)) as HC.
  pose proof (pow2_double w k Hk) as H2C.
  pose proof (Z.mod_pos_bound (head q) _ HC) as Rh.
  pose proof (Z.mod_pos_bound (tail q) _ HC) as Rt.
  unfold queue_pop. rewrite mask_val by exact Hk.
  rewrite !land_mask by lia. rewrite land_1, !Z.shiftr_div_pow2 by lia.
  unfold used, subw, mulw, C.
  destruct (blocks_cases w k (head q) (tail q) Hk Hh Ht Hused)
    as [(_ & Hle & Ed & Ec) | (_ & Hle & Ed & Ec)];
    rewrite Ec, Ed; f_equal.
  - rewrite Z.mul_0_r, (wrap_small w 0), Z.sub_0_r by lia.
    rewrite wrap_small by lia. lia.
  - rewrite Z.mul_1_r, (wrap_small w (tail q mod 2 ^ k)) by lia.
    rewrite wrap_small by lia. lia.
Qed.

Lemma queue_push_spec :
  queue_push w q k = (tail q mod C, Z.min (C - used w q) (C - tail q mod C)).
Proof.
  destruct Hq as [Hh Ht]. unfold used, subw in Hused.
  pose proof (pow2_pos k ltac:(lia)) as HC.
  pose proof (pow2_double w k Hk) as H2C.
  pose proof (Z.mod_pos_bound (head q) _ HC) as Rh.
  pose proof (Z.mod_pos_bound (tail q) _ HC) as Rt.
  unfold queue_push. rewrite mask_val by exact Hk.
  rewrite !land_mask by lia. rewrite land_1, !Z.shiftr_div_pow2 by lia.
  unfold used, subw, mulw, addw, C.
  replace (2 ^ k - 1 + 1) with (2 ^ k) by lia.
  rewrite (wrap_small w (2 ^ k)) by lia.
  destruct (blocks_cases w k (head q) (tail q) Hk Hh Ht Hused)
    as [(_ & Hle & Ed & Ec) | (_ & Hle & Ed & Ec)];
    rewrite Ec, Ed; f_equal.
  - rewrite Z.sub_0_r, (wrap_small w 1), Z.mul_1_r by lia.
    rewrite (wrap_small w (head q mod 2 ^ k)) by lia.
    rewrite (wrap_small w (2 ^ k - _)) by lia.
    rewrite wrap_small by lia. lia.
  - replace (1 - 1) with 0 by lia.
    rewrite (wrap_small w 0), Z.mul_0_r, (wrap_small w 0), Z.sub_0_r by lia.
    rewrite (wrap_small w (2 ^ k - _)) by lia.
    rewrite wrap_small by lia. lia.
Qed.

End Specs.

Lemma used_commit_pop w q n :
  used w (queue_commit_pop w q n) = wrap w (used w q - n).
Proof.
  unfold used, queue_commit_pop, subw, addw, wrap; simpl.
  rewrite Zminus_mod_idemp_r, Zminus_mod_idemp_l. f_equal. lia.
Qed.

Lemma used_commit_push w q n :
  used w (queue_commit_push w q n) = wrap w (used w q + n).
Proof.
  unfold used, queue_commit_push, subw, addw, wrap; simpl.
  rewrite Zminus_mod_idemp_l, Zplus_mod_idemp_l. f_equal. lia.
Qed.

Lemma wrap_block_start w k x :
  0 <= k <= w -> wrap w (x + (2 ^ k - x mod 2 ^ k)) mod 2 ^ k = 0.
Proof.
  intros H. fold (wrap k (wrap w (x + (2 ^ k - x mod 2 ^ k)))).
  rewrite wrap_wrap_le by exact H. unfold wrap.
  pose proof (pow2_pos k ltac:(lia)).
  replace (x + (2 ^ k - x mod 2 ^ k))
    with (0 + (x / 2 ^ k + 1) * 2 ^ k)
    by (pose proof (Z.div_mod x (2 ^ k)); lia).
  rewrite Z.mod_add by lia. apply Z.mod_0_l; lia.
Qed.

(** C5 (SPSC maximal contiguous run).  For counters with
    [(tail - head) mod 2^w] in [[0, C]], [C = 2^k]: [queue_pop] returns
    index [head mod C] and count [min (tail - head) (C - head mod C)],
    [queue_push] returns index [tail mod C] and count
    [min (C - (tail - head)) (C - tail mod C)]; so [index + count <= C] for
    both; and when the run crosses the end of the array, committing the
    returned count makes the next call return index 0 and the remainder. *)
Theorem queue_maximal_contiguous_run (w k : Z) (q : Queue) :
  0 <= k < w -> wf_queue w q -> used w q <= 2 ^ k ->
  queue_pop w q k
    = (head q mod 2 ^ k, Z.min (used w q) (2 ^ k - head q mod 2 ^ k)) /\
  queue_push w q k
    = (tail q mod 2 ^ k, Z.min (2 ^ k - used w q) (2 ^ k - tail q mod 2 ^ k)) /\
  fst (queue_pop w q k) + snd (queue_pop w q k) <= 2 ^ k /\
  fst (queue_push w q k) + snd (queue_push w q k) <= 2 ^ k /\
  (2 ^ k - head q mod 2 ^ k < used w q ->
     queue_pop w (queue_commit_pop w q (snd (queue_pop w q k))) k
       = (0, used w q - snd (queue_pop w q k))) /\
  (2 ^ k - tail q mod 2 ^ k < 2 ^ k - used w q ->
     queue_push w (queue_commit_push w q (snd (queue_push w q k))) k
       = (0, 2 ^ k - used w q - snd (queue_push w q k))).
Proof.
  intros Hk Hq Hu.
  pose proof (queue_pop_spec w k q Hk Hq Hu) as Epop.
  pose proof (queue_push_spec w k q Hk Hq Hu) as Epush.
  pose proof (used_range w k q Hk) as Ru.
  pose proof (pow2_pos k ltac:(lia)) as HC.
  pose proof (pow2_double w k Hk) as H2C.
  pose proof (Z.mod_pos_bound (head q) _ HC) as Rh.
  pose proof (Z.mod_pos_bound (tail q) _ HC) as Rt.
  rewrite Epop, Epush; simpl fst; simpl snd.
  repeat split; try lia.
  - intros Hcross. rewrite Z.min_r by lia.
    set (q' := queue_commit_pop w q (2 ^ k - head q mod 2 ^ k)).
    assert (Eu : used w q' = used w q - (2 ^ k - head q mod 2 ^ k)).
    { unfold q'. rewrite used_commit_pop. apply wrap_small; lia. }
    assert (Hq' : wf_queue w q').
    { split; [apply wrap_range; lia | apply Hq]. }
    rewrite (queue_pop_spec w k q' Hk Hq') by lia.
    assert (E0 : head q' mod 2 ^ k = 0) by (apply wrap_block_start; lia).
    rewrite E0, Eu. f_equal. lia.
  - intros Hcross. rewrite Z.min_r by lia.
    set (q' := queue_commit_push w q (2 ^ k - tail q mod 2 ^ k)).
    assert (Eu : used w q' = used w q + (2 ^ k - tail q mod 2 ^ k)).
    { unfold q'. rewrite used_commit_push. apply wrap_small; lia. }
    assert (Hq' : wf_queue w q').
    { split; [apply Hq | apply wrap_range; lia]. }
    rewrite (queue_push_spec w k q' Hk Hq') by lia.
    assert (E0 : tail q' mod 2 ^ k = 0) by (apply wrap_block_start; lia).
    rewrite E0, Eu. f_equal. lia.
Qed.

(** The run of three elements that starts one slot before the end of a
    four-slot array, with both counters about to wrap past [SIZE_MAX]. *)
Lemma queue_maximal_contiguous_run_witness :
  queue_pop 64 (mkQueue (2 ^ 64 - 1) 2) 2 = (3, 1) /\
  queue_pop 64 (queue_commit_pop 64 (mkQueue (2 ^ 64 - 1) 2) 1) 2 = (0, 2).
Proof.
  set (q := mkQueue (2 ^ 64 - 1) 2).
  destruct (queue_maximal_contiguous_run 64 2 q) as (E1 & _ & _ & _ & E2 & _).
  - lia.
  - unfold wf_queue; simpl; lia.
  - vm_compute; discriminate.
  - split.
    + rewrite E1. reflexivity.
    + assert (Hc : snd (queue_pop 64 q 2) = 1) by (rewrite E1; reflexivity).
      rewrite Hc in E2. rewrite E2 by (vm_compute; reflexivity).
      reflexivity.
Defined.

(** C6 (SPSC empty/full disambiguation).  For counters with
    [(tail - head) mod 2^w] in [[0, C]]: [queue_pop] sets [*count] to 0
    exactly when [head == tail], and [queue_push] sets it to 0 exactly when
    [(tail - head) mod 2^w == C]. *)
Theorem queue_empty_full (w k : Z) (q : Queue) :
  0 <= k < w -> wf_queue w q -> used w q <= 2 ^ k ->
  (snd (queue_pop w q k) = 0 <-> head q = tail q) /\
  (snd (queue_push w q k) = 0 <-> used w q = 2 ^ k).
Proof.
  intros Hk Hq Hu.
  rewrite (queue_pop_spec w k q Hk Hq Hu), (queue_push_spec w k q Hk Hq Hu).
  simpl snd.
  pose proof (used_range w k q Hk) as Ru.
  pose proof (pow2_pos k ltac:(lia)) as HC.
  pose proof (Z.mod_pos_bound (head q) _ HC) as Rh.
  pose proof (Z.mod_pos_bound (tail q) _ HC) as Rt.
  assert (E : used w q = 0 <-> head q = tail q).
  { destruct Hq as [Hh Ht]. unfold used, subw. split.
    - intros E0.
      destruct (Z_le_gt_dec (head q) (tail q)).
      + rewrite wrap_small in E0 by lia. lia.
      + rewrite (wrap_unique w _ (-1) (2 ^ w + tail q - head q)) in E0; lia.
    - intros ->. rewrite Z.sub_diag. apply wrap_small; lia. }
  split; [rewrite <- E |]; lia.
Qed.

Lemma queue_empty_full_witness :
  (snd (queue_pop 64 (mkQueue 5 5) 3) = 0 <-> 5 = 5) /\
  (snd (queue_push 64 (mkQueue 5 13) 3) = 0 <-> used 64 (mkQueue 5 13) = 2 ^ 3).
Proof.
  split.
  - apply (queue_empty_full 64 3 (mkQueue 5 5)).
    + lia.
    + unfold wf_queue; simpl; lia.
    + vm_compute; discriminate.
  - apply (queue_empty_full 64 3 (mkQueue 5 13)).
    + lia.
    + unfold wf_queue; simpl; lia.
    + vm_compute; discriminate.
Defined.

Lemma wf_shift_queue w d q : 0 <= w -> wf_queue w (shift_queue w d q).
Proof. intros; split; apply wrap_range; assumption. Qed.

Lemma used_shift_queue w d q : used w (shift_queue w d q) = used w q.
Proof. unfold used, shift_queue, subw, addw; simpl. apply wrap_sub_wrap. Qed.

Lemma wrap_add_multiple w k x n :
  0 <= k <= w -> wrap w (x + n * 2 ^ k) mod 2 ^ k = x mod 2 ^ k.
Proof.
  intros H. fold (wrap k (wrap w (x + n * 2 ^ k))).
  rewrite wrap_wrap_le by exact H. unfold wrap.
  apply Z.mod_add. pose proof (pow2_pos k); lia.
Qed.

(** C8 (SPSC wrap safety).  For counters with [(tail - head) mod 2^w] in
    [[0, C]] and every offset [d] that is a multiple of [C = 2^k],
    [queue_pop] and [queue_push] return the same index and count on
    [(head + d, tail + d)], both sums taken modulo [2^w], as on
    [(head, tail)]. *)
Theorem queue_wrap_safety (w k n : Z) (q : Queue) :
  0 <= k < w -> wf_queue w q -> used w q <= 2 ^ k ->
  queue_pop w (shift_queue w (n * 2 ^ k) q) k = queue_pop w q k /\
  queue_push w (shift_queue w (n * 2 ^ k) q) k = queue_push w q k.
Proof.
  intros Hk Hq Hu.
  pose proof (wf_shift_queue w (n * 2 ^ k) q ltac:(lia)) as Hq'.
  pose proof (used_shift_queue w (n * 2 ^ k) q) as Eu.
  rewrite (queue_pop_spec w k q Hk Hq Hu), (queue_push_spec w k q Hk Hq Hu).
  rewrite (queue_pop_spec w k _ Hk Hq'), (queue_push_spec w k _ Hk Hq')
    by (rewrite Eu; exact Hu).
  rewrite Eu. unfold shift_queue, addw; simpl.
  rewrite !wrap_add_multiple by lia. split; reflexivity.
Qed.

(** A queue holding three elements from counter 6, moved to
    [SIZE_MAX - 1]: the offset is [2^64 - 8], a multiple of 4. *)
Lemma queue_wrap_safety_witness :
  shift_queue 64 ((2 ^ 62 - 2) * 2 ^ 2) (mkQueue 6 9)
    = mkQueue (2 ^ 64 - 2) 1 /\
  queue_pop 64 (mkQueue (2 ^ 64 - 2) 1) 2 = queue_pop 64 (mkQueue 6 9) 2 /\
  queue_push 64 (mkQueue (2 ^ 64 - 2) 1) 2 = queue_push 64 (mkQueue 6 9) 2.
Proof.
  set (q := mkQueue 6 9).
  assert (E : shift_queue 64 ((2 ^ 62 - 2) * 2 ^ 2) q = mkQueue (2 ^ 64 - 2) 1)
    by reflexivity.
  split; [exact E |]. rewrite <- E.
  apply (queue_wrap_safety 64 2 (2 ^ 62 - 2) q).
  - lia.
  - unfold wf_queue; simpl; lia.
  - vm_compute; discriminate.
Defined.

(** *** Sequences of calls, and how the calls compose *)

Lemma used_zero_iff w q :
  0 <= w -> wf_queue w q -> (used w q = 0 <-> head q = tail q).
Proof.
  intros Hw [Hh Ht]. unfold used, subw. split.
  - intros E0. destruct (Z_le_gt_dec (head q) (tail q)).
    + rewrite wrap_small in E0 by lia. lia.
    + rewrite (wrap_unique w _ (-1) (2 ^ w + tail q - head q)) in E0; lia.
  - intros ->. rewrite Z.sub_diag. apply wrap_small; lia.
Qed.

Lemma wf_commit_pop w q n :
  0 <= w -> wf_queue w q -> wf_queue w (queue_commit_pop w q n).
Proof. intros Hw [Hh Ht]. split; [apply wrap_range; lia | exact Ht]. Qed.

Lemma wf_commit_push w q n :
  0 <= w -> wf_queue w q -> wf_queue w (queue_commit_push w q n).
Proof. intros Hw [Hh Ht]. split; [exact Hh | apply wrap_range; lia]. Qed.

Section Steps.
Variables w k : Z.
Hypothesis Hk : 0 <= k < w.

Lemma step_within o q q' :
  wf_queue w q /\ used w q <= 2 ^ k -> step w k o q = Some q' ->
  (wf_queue w q' /\ used w q' <= 2 ^ k) /\
  used w q' = match o with
              | produce n => used w q + n
              | consume n => used w q - n
              end.
Proof.
  intros [Hq Hu]. unfold step.
  pose proof (used_range w k q Hk) as Ru.
  pose proof (pow2_pos k ltac:(lia)) as HC.
  pose proof (pow2_double w k Hk) as H2C.
  pose proof (Z.mod_pos_bound (head q) _ HC) as Rh.
  pose proof (Z.mod_pos_bound (tail q) _ HC) as Rt.
  destruct o as [n | n].
  - rewrite (queue_push_spec w k q Hk Hq Hu). simpl snd.
    destruct (Z.leb_spec 0 n); [| discriminate].
    destruct (Z.leb_spec n
                (Z.min (2 ^ k - used w q) (2 ^ k - tail q mod 2 ^ k)));
      [| discriminate].
    simpl. intros [= <-].
    assert (E : used w (queue_commit_push w q n) = used w q + n)
      by (rewrite used_commit_push; apply wrap_small; lia).
    split; [split; [apply wf_commit_push; [lia | exact Hq] | lia] | exact E].
  - rewrite (queue_pop_spec w k q Hk Hq Hu). simpl snd.
    destruct (Z.leb_spec 0 n); [| discriminate].
    destruct (Z.leb_spec n (Z.min (used w q) (2 ^ k - head q mod 2 ^ k)));
      [| discriminate].
    simpl. intros [= <-].
    assert (E : used w (queue_commit_pop w q n) = used w q - n)
      by (rewrite used_commit_pop; apply wrap_small; lia).
    split; [split; [apply wf_commit_pop; [lia | exact Hq] | lia] | exact E].
Qed.

End Steps.

(** X1 (capacity bound).  From a queue with [tail - head] in [[0, C]],
    any sequence of slice-and-commit calls, each committing between 0 and
    the count [queue_push] or [queue_pop] just returned, leaves
    [tail - head] in [[0, C]]. *)
Theorem queue_capacity_bound (w k : Z) (os : list Op) (q q' : Queue) :
  0 <= k < w -> wf_queue w q -> used w q <= 2 ^ k ->
  steps w k os q = Some q' ->
  wf_queue w q' /\ used w q' <= 2 ^ k.
Proof.
  intros Hk. revert q. induction os as [| o os IH]; simpl; intros q Hq Hu E.
  - injection E as <-. split; assumption.
  - destruct (step w k o q) as [q1 |] eqn:Es; [| discriminate].
    destruct (step_within w k Hk o q q1 (conj Hq Hu) Es) as [[Hq1 Hu1] _].
    apply (IH q1); assumption.
Qed.

Lemma queue_capacity_bound_witness :
  steps 64 2 [produce 3; consume 3; produce 1; produce 2] (mkQueue 0 0)
    = Some (mkQueue 3 6) /\
  used 64 (mkQueue 3 6) <= 2 ^ 2.
Proof.
  assert (E : steps 64 2 [produce 3; consume 3; produce 1; produce 2]
                (mkQueue 0 0) = Some (mkQueue 3 6)) by reflexivity.
  split; [exact E |].
  apply (queue_capacity_bound 64 2
           [produce 3; consume 3; produce 1; produce 2]
           (mkQueue 0 0) (mkQueue 3 6)).
  - lia.
  - unfold wf_queue; simpl; lia.
  - vm_compute; discriminate.
  - exact E.
Defined.

(** X2 (producer and consumer never share a cell).  No index of the array
    is both in the run returned by [queue_pop] and in the run returned by
    [queue_push]. *)
Theorem queue_runs_disjoint (w k : Z) (q : Queue) (i : Z) :
  0 <= k < w -> wf_queue w q -> used w q <= 2 ^ k ->
  ~ (in_run (queue_pop w q k) i /\ in_run (queue_push w q k) i).
Proof.
  intros Hk Hq Hu.
  rewrite (queue_pop_spec w k q Hk Hq Hu), (queue_push_spec w k q Hk Hq Hu).
  unfold in_run. simpl fst. simpl snd.
  destruct Hq as [Hh Ht]. unfold used, subw in *.
  destruct (blocks_cases w k (head q) (tail q) Hk Hh Ht Hu)
    as [(_ & Hle & Ed & _) | (_ & Hle & Ed & _)]; rewrite Ed; lia.
Qed.

Lemma queue_runs_disjoint_witness :
  ~ (in_run (queue_pop 64 (mkQueue 3 6) 2) 3
     /\ in_run (queue_push 64 (mkQueue 3 6) 2) 3).
Proof.
  apply (queue_runs_disjoint 64 2 (mkQueue 3 6) 3).
  - lia.
  - unfold wf_queue; simpl; lia.
  - vm_compute; discriminate.
Defined.

(** X3 (two calls suffice).  Popping and committing the whole count
    twice empties the queue, the two counts adding up to [tail - head];
    pushing and committing the whole count twice fills it, the two counts
    adding up to [C - (tail - head)]. *)
Theorem queue_two_calls_suffice (w k : Z) (q : Queue) :
  0 <= k < w -> wf_queue w q -> used w q <= 2 ^ k ->
  (let q1 := queue_commit_pop w q (snd (queue_pop w q k)) in
   let q2 := queue_commit_pop w q1 (snd (queue_pop w q1 k)) in
   snd (queue_pop w q k) + snd (queue_pop w q1 k) = used w q /\
   head q2 = tail q2) /\
  (let q1 := queue_commit_push w q (snd (queue_push w q k)) in
   let q2 := queue_commit_push w q1 (snd (queue_push w q1 k)) in
   snd (queue_push w q k) + snd (queue_push w q1 k) = 2 ^ k - used w q /\
   used w q2 = 2 ^ k).
Proof.
  intros Hk Hq Hu. cbv zeta.
  pose proof (used_range w k q Hk) as Ru.
  pose proof (pow2_pos k ltac:(lia)) as HC.
  pose proof (pow2_double w k Hk) as H2C.
  pose proof (Z.mod_pos_bound (head q) _ HC) as Rh.
  pose proof (Z.mod_pos_bound (tail q) _ HC) as Rt.
  rewrite (queue_pop_spec w k q Hk Hq Hu), (queue_push_spec w k q Hk Hq Hu).
  cbn [snd]. split.
  - set (c1 := Z.min (used w q) (2 ^ k - head q mod 2 ^ k)).
    set (q1 := queue_commit_pop w q c1).
    assert (Hq1 : wf_queue w q1) by (apply wf_commit_pop; [lia | exact Hq]).
    assert (Eu1 : used w q1 = used w q - c1)
      by (unfold q1; rewrite used_commit_pop; apply wrap_small; lia).
    pose proof (Z.mod_pos_bound (head q1) _ HC) as Rh1.
    assert (Ec2 : Z.min (used w q1) (2 ^ k - head q1 mod 2 ^ k)
                  = used w q - c1).
    { destruct (Z_le_gt_dec (used w q) (2 ^ k - head q mod 2 ^ k)).
      - lia.
      - assert (E0 : head q1 mod 2 ^ k = 0).
        { unfold q1, c1. rewrite Z.min_r by lia.
          apply wrap_block_start; lia. }
        rewrite E0. lia. }
    rewrite (queue_pop_spec w k q1 Hk Hq1) by lia. cbn [snd]. rewrite Ec2.
    split; [lia |].
    apply (used_zero_iff w); [lia | apply wf_commit_pop; [lia | exact Hq1] |].
    rewrite used_commit_pop, Eu1, Z.sub_diag. apply wrap_small; lia.
  - set (c1 := Z.min (2 ^ k - used w q) (2 ^ k - tail q mod 2 ^ k)).
    set (q1 := queue_commit_push w q c1).
    assert (Hq1 : wf_queue w q1) by (apply wf_commit_push; [lia | exact Hq]).
    assert (Eu1 : used w q1 = used w q + c1)
      by (unfold q1; rewrite used_commit_push; apply wrap_small; lia).
    pose proof (Z.mod_pos_bound (tail q1) _ HC) as Rt1.
    assert (Ec2 : Z.min (2 ^ k - used w q1) (2 ^ k - tail q1 mod 2 ^ k)
                  = 2 ^ k - used w q - c1).
    { destruct (Z_le_gt_dec (2 ^ k - used w q) (2 ^ k - tail q mod 2 ^ k)).
      - lia.
      - assert (E0 : tail q1 mod 2 ^ k = 0).
        { unfold q1, c1. rewrite Z.min_r by lia.
          apply wrap_block_start; lia. }
        rewrite E0. lia. }
    rewrite (queue_push_spec w k q1 Hk Hq1) by lia. cbn [snd]. rewrite Ec2.
    split; [lia |].
    rewrite used_commit_push, Eu1.
    replace (used w q + c1 + (2 ^ k - used w q - c1)) with (2 ^ k) by lia.
    apply wrap_small; lia.
Qed.

Lemma queue_two_calls_suffice_witness :
  snd (queue_pop 64 (mkQueue 3 6) 2)
  + snd (queue_pop 64 (queue_commit_pop 64 (mkQueue 3 6)
                         (snd (queue_pop 64 (mkQueue 3 6) 2))) 2)
  = used 64 (mkQueue 3 6).
Proof.
  destruct (queue_two_calls_suffice 64 2 (mkQueue 3 6)) as [[E _] _].
  - lia.
  - unfold wf_queue; simpl; lia.
  - vm_compute; discriminate.
  - exact E.
Defined.

(** X4 (a stale counter is safe).  [queue_pop] on an older value of
    [tail] (fewer elements stored) returns the same index and a count that
    is not larger; [queue_push] on an older value of [head] (more elements
    stored) returns the same index and a count that is not larger. *)
Theorem queue_stale_counter (w k h t h' t' : Z) :
  0 <= k < w ->
  wf_queue w (mkQueue h t) -> used w (mkQueue h t) <= 2 ^ k ->
  (0 <= t' < 2 ^ w -> used w (mkQueue h t') <= used w (mkQueue h t) ->
     fst (queue_pop w (mkQueue h t') k) = fst (queue_pop w (mkQueue h t) k) /\
     snd (queue_pop w (mkQueue h t') k) <= snd (queue_pop w (mkQueue h t) k)) /\
  (0 <= h' < 2 ^ w ->
   used w (mkQueue h t) <= used w (mkQueue h' t) <= 2 ^ k ->
     fst (queue_push w (mkQueue h' t) k) = fst (queue_push w (mkQueue h t) k) /\
     snd (queue_push w (mkQueue h' t) k) <= snd (queue_push w (mkQueue h t) k)).
Proof.
  intros Hk Hq Hu.
  pose proof (queue_pop_spec w k _ Hk Hq Hu) as Epop.
  pose proof (queue_push_spec w k _ Hk Hq Hu) as Epush.
  destruct Hq as [Hh Ht]. simpl in Hh, Ht. split.
  - intros Ht' Hle.
    assert (Hq' : wf_queue w (mkQueue h t')) by (split; assumption).
    rewrite (queue_pop_spec w k _ Hk Hq') by lia. rewrite Epop.
    simpl. split; [reflexivity | lia].
  - intros Hh' Hle.
    assert (Hq' : wf_queue w (mkQueue h' t)) by (split; assumption).
    rewrite (queue_push_spec w k _ Hk Hq') by lia. rewrite Epush.
    simpl. split; [reflexivity | lia].
Qed.

Lemma queue_stale_counter_witness :
  snd (queue_pop 64 (mkQueue 3 4) 2) <= snd (queue_pop 64 (mkQueue 3 6) 2) /\
  snd (queue_push 64 (mkQueue 2 6) 2) <= snd (queue_push 64 (mkQueue 3 6) 2).
Proof.
  destruct (queue_stale_counter 64 2 3 6 2 4) as [Hpop Hpush].
  - lia.
  - unfold wf_queue; simpl; lia.
  - vm_compute; discriminate.
  - split.
    + apply Hpop; [lia | vm_compute; discriminate].
    + apply Hpush; [lia | split; vm_compute; discriminate].
Defined.

(** X5 (push then pop).  On an empty queue, after the producer commits
    [n] of the cells [queue_push] gave it, [queue_pop] returns the same
    index and the count [n]. *)
Theorem queue_push_pop_round_trip (w k n : Z) (q : Queue) :
  0 <= k < w -> wf_queue w q -> head q = tail q ->
  0 <= n <= snd (queue_push w q k) ->
  queue_pop w (queue_commit_push w q n) k = (fst (queue_push w q k), n).
Proof.
  intros Hk Hq He Hn.
  pose proof (pow2_pos k ltac:(lia)) as HC.
  pose proof (pow2_double w k Hk) as H2C.
  assert (Eu : used w q = 0)
    by (apply used_zero_iff; [lia | exact Hq | exact He]).
  pose proof (Z.mod_pos_bound (tail q) _ HC) as Rt.
  rewrite (queue_push_spec w k q Hk Hq) in * by lia. cbn [fst]. cbn [snd] in Hn.
  assert (Eu' : used w (queue_commit_push w q n) = n)
    by (rewrite used_commit_push, Eu; apply wrap_small; lia).
  rewrite (queue_pop_spec w k _ Hk (wf_commit_push w q n ltac:(lia) Hq))
    by lia.
  rewrite Eu'. unfold queue_commit_push. cbn [head tail].
  rewrite He. f_equal. lia.
Qed.

Lemma queue_push_pop_round_trip_witness :
  queue_pop 64 (queue_commit_push 64 (mkQueue 7 7) 1) 2
  = (fst (queue_push 64 (mkQueue 7 7) 2), 1).
Proof.
  apply (queue_push_pop_round_trip 64 2 1 (mkQueue 7 7)).
  - lia.
  - unfold wf_queue; simpl; lia.
  - reflexivity.
  - vm_compute. split; discriminate.
Defined.

End SPSCFacts.

(** ** The broadcast queue *)

Module BrdctFacts.
Import Brdct.

(** [t & -H] in an unsigned type of [w] bits, [H = 2^j], is the start of
    the block of [H] in which [t] lies. *)
Lemma land_neg_pow2 w j t :
  0 <= j < w -> 0 <= t < 2 ^ w ->
  Z.land t (negw w (2 ^ j)) = t - t mod 2 ^ j.
Proof.
  intros Hj Ht. unfold negw, wrap.
  rewrite <- (Z.land_ones (- 2 ^ j) w) by lia.
  rewrite (Z.land_comm (- 2 ^ j)), Z.land_assoc.
  rewrite (Z.land_ones t w), (Z.mod_small t) by lia.
  replace (- 2 ^ j) with (Z.lnot (Z.ones j))
    by (rewrite Z.ones_equiv; unfold Z.lnot; lia).
  rewrite <- Z.ldiff_land, Z.ldiff_ones_r by lia.
  rewrite Z.shiftl_mul_pow2, Z.shiftr_div_pow2 by lia.
  pose proof (pow2_pos j ltac:(lia)).
  pose proof (Z.div_mod t (2 ^ j)). lia.
Qed.

Lemma halflen_val w k : 1 <= k <= w -> shlw w 1 (k - 1) = 2 ^ (k - 1).
Proof.
  intros H. unfold shlw. rewrite Z.shiftl_1_l.
  pose proof (pow2_double w (k - 1) ltac:(lia)).
  pose proof (pow2_pos (k - 1) ltac:(lia)).
  apply wrap_small; lia.
Qed.

Lemma cap_val w k : 0 <= k < w -> shlw w 1 k = 2 ^ k.
Proof.
  intros H. unfold shlw. rewrite Z.shiftl_1_l.
  pose proof (pow2_double w k H). pose proof (pow2_pos k ltac:(lia)).
  apply wrap_small; lia.
Qed.

Lemma pow2_half k : 1 <= k -> 2 ^ k = 2 * 2 ^ (k - 1).
Proof. intros. rewrite (pow2_split k 1) by lia. reflexivity. Qed.

Section Head.

Variable v : Variant.
Variables k : Z.
Variable b : Broadcast.
Hypothesis Hk : 1 <= k < word_bits v.
Hypothesis Ht : 0 <= tail b < 2 ^ word_bits v.
Hypothesis Hs : 0 <= hstate b <= 1.

Let W := word_bits v.
Let H := 2 ^ (k - 1).

(** The derived head is the start of the half-block of [tail], or of the
    one before it when [hstate] is set; the subtraction wraps in [brdct_t]
    when there is no half-block before. *)
Lemma derived_head_val :
  derived_head v b k = wrap W (tail b - tail b mod H - H * hstate b).
Proof.
  unfold derived_head. fold W.
  rewrite halflen_val by (unfold W; lia). fold H.
  unfold H at 1. rewrite land_neg_pow2 by (unfold W; lia). fold H.
  unfold subw, mulw, wrap. now rewrite Zminus_mod_idemp_r.
Qed.

(** So [tail - head], in [brdct_t], is always below the capacity. *)
Lemma derived_head_distance :
  subw W (tail b) (derived_head v b k) = tail b mod H + H * hstate b /\
  subw W (tail b) (derived_head v b k) <= 2 ^ k - 1.
Proof.
  rewrite derived_head_val. unfold subw, wrap.
  rewrite Zminus_mod_idemp_r.
  pose proof (pow2_pos (k - 1) ltac:(lia)) as HH. fold H in HH.
  pose proof (Z.mod_pos_bound (tail b) H HH) as Rm.
  pose proof (pow2_half k ltac:(lia)) as E2. fold H in E2.
  pose proof (pow2_double W k ltac:(unfold W; lia)) as HW.
  replace (tail b - (tail b - tail b mod H - H * hstate b))
    with (tail b mod H + H * hstate b) by lia.
  rewrite Z.mod_small by nia. split; [reflexivity | nia].
Qed.

Lemma derived_head_range : 0 <= derived_head v b k < 2 ^ W.
Proof. rewrite derived_head_val. apply wrap_range. unfold W; lia. Qed.

(** Where the derived head lies relative to the block of [2^k] that holds
    [tail]. *)
Lemma derived_head_cases :
  let C := 2 ^ k in
  let hd := derived_head v b k in
  (hstate b = 0 /\ hd / C = tail b / C /\
     hd mod C = tail b mod C - tail b mod H /\
     (tail b mod C = tail b mod H \/ tail b mod C = tail b mod H + H)) \/
  (hstate b = 1 /\ tail b mod C = tail b mod H + H /\
     hd / C = tail b / C /\ hd mod C = 0) \/
  (hstate b = 1 /\ tail b mod C = tail b mod H /\ hd / C <> tail b / C).
Proof.
  intros C hd. unfold hd. rewrite derived_head_val.
  pose proof (pow2_pos (k - 1) ltac:(lia)) as HH. fold H in HH.
  pose proof (pow2_half k ltac:(lia)) as E2. fold H in E2. fold C in E2.
  pose proof (pow2_double W k ltac:(unfold W; lia)) as HW. fold C in HW.
  pose proof (Z.mod_pos_bound (tail b) H HH) as Rm.
  assert (HC : 0 < C) by lia.
  pose proof (Z.mod_pos_bound (tail b) C HC) as Rc.
  pose proof (Z.div_mod (tail b) C ltac:(lia)) as Ed.
  assert (Hq : 0 <= tail b / C) by (apply Z.div_pos; lia).
  assert (Em : tail b mod C = tail b mod H + H * ((tail b / H) mod 2)).
  { rewrite E2, (Z.mul_comm 2 H). apply Z.rem_mul_r; lia. }
  pose proof (Z.mod_pos_bound (tail b / H) 2 ltac:(lia)) as R2.
  assert (Hhalf : tail b mod C = tail b mod H \/
                  tail b mod C = tail b mod H + H).
  { assert ((tail b / H) mod 2 = 0 \/ (tail b / H) mod 2 = 1) as [E | E]
      by lia; rewrite E in Em; lia. }
  assert (Hs' : hstate b = 0 \/ hstate b = 1) by lia.
  destruct Hs' as [E0 | E1].
  - left. rewrite E0, Z.mul_0_r, Z.sub_0_r.
    rewrite wrap_small by (fold W in Ht; lia).
    assert (E : tail b - tail b mod H
                = C * (tail b / C) + (tail b mod C - tail b mod H)) by lia.
    repeat split; try assumption.
    + symmetry. eapply Z.div_unique_pos; [ | exact E]. lia.
    + symmetry. eapply Z.mod_unique_pos; [ | exact E]. lia.
  - rewrite E1, Z.mul_1_r. destruct Hhalf as [Elow | Ehigh].
    + right; right. repeat split; try assumption.
      destruct (Z.eq_dec (tail b / C) 0) as [Eq0 | Eq0].
      * rewrite (wrap_unique W _ (-1) (2 ^ W - H)) by (fold W in Ht; lia).
        rewrite Eq0.
        assert (EW : 2 ^ W = C * 2 ^ (W - k))
          by (apply pow2_split; unfold W; lia).
        pose proof (pow2_pos (W - k) ltac:(unfold W; lia)).
        assert (E : 2 ^ W - H = C * (2 ^ (W - k) - 1) + H) by lia.
        rewrite <- (Z.div_unique_pos _ C _ H ltac:(lia) E). nia.
      * rewrite wrap_small by (fold W in Ht; nia).
        assert (E : tail b - tail b mod H - H = C * (tail b / C - 1) + H)
          by lia.
        rewrite <- (Z.div_unique_pos _ C _ H ltac:(lia) E). lia.
    + right; left. rewrite wrap_small by (fold W in Ht; lia).
      assert (E : tail b - tail b mod H - H = C * (tail b / C) + 0) by lia.
      repeat split; try assumption.
      * symmetry. eapply Z.div_unique_pos; [ | exact E]. lia.
      * symmetry. eapply Z.mod_unique_pos; [ | exact E]. lia.
Qed.

End Head.

Lemma wrap_add_sub w t l h :
  subw w (addw w t l) h = wrap w (subw w t h + l).
Proof.
  unfold subw, addw, wrap.
  rewrite Zminus_mod_idemp_l, Zplus_mod_idemp_l. f_equal. lia.
Qed.

(** Removes the wrap-arounds whose argument is in range, innermost first. *)
Ltac unwrap W :=
  repeat match goal with
    | |- context [wrap W ?x] => rewrite (wrap_small W x) by lia
    end.

(** Decides the comparisons of the goal by linear arithmetic. *)
Ltac decide_tests :=
  repeat match goal with
    | |- context [?a =? ?b] =>
        first [ replace (a =? b) with true by (symmetry; apply Z.eqb_eq; lia)
              | replace (a =? b) with false
                  by (symmetry; apply Z.eqb_neq; lia) ]
    | |- context [?a <? ?b] =>
        first [ replace (a <? b) with true by (symmetry; apply Z.ltb_lt; lia)
              | replace (a <? b) with false by (symmetry; apply Z.ltb_ge; lia) ]
    end.

Section WriterSlice.

Variable v : Variant.
Variables k : Z.
Variable b : Broadcast.
Hypothesis Hk : 1 <= k < word_bits v.
Hypothesis Ht : 0 <= tail b < 2 ^ word_bits v.
Hypothesis Hs : 0 <= hstate b <= 1.

Lemma writer_slice_spec :
  let new := fst (brdct_writer_slice v b k) in
  let s := snd (brdct_writer_slice v b k) in
  tail new = tail b /\ 0 <= hstate new <= 1 /\
  in_bounds k s /\ idx0 s = tail b mod 2 ^ k /\
  len s = 2 ^ k - 1 - (tail b mod 2 ^ (k - 1) + 2 ^ (k - 1) * hstate new).
Proof.
  unfold brdct_writer_slice. cbv zeta. simpl fst. simpl snd.
  set (new := if (nreaders b =? 0) || (ncycled b <? nreaders b) then b
    else mkBroadcast (tail b) (nreaders b) 0 0).
  assert (Hnew : tail new = tail b /\ 0 <= hstate new <= 1).
  { unfold new. destruct (_ || _); simpl; lia. }
  destruct Hnew as [Etl Hsn]. clearbody new.
  fold (derived_head v new k).
  assert (Htn : 0 <= tail new < 2 ^ word_bits v) by (rewrite Etl; exact Ht).
  pose proof (derived_head_distance v k new Hk Htn Hsn) as [Ed _].
  pose proof (derived_head_range v k new Hk Htn) as Rhd.
  pose proof (derived_head_cases v k new Hk Htn Hsn) as Hc. cbv zeta in Hc.
  set (hd := derived_head v new k) in *. clearbody hd.
  rewrite mask_val, cap_val by lia.
  rewrite !land_mask, !Z.shiftr_div_pow2 by lia.
  rewrite wrap_add_sub, Ed. rewrite Etl in *.
  unfold addw, subw. replace (2 ^ k - 1 + 1) with (2 ^ k) by lia.
  pose proof (pow2_pos (k - 1) ltac:(lia)) as HH.
  pose proof (pow2_half k ltac:(lia)) as E2.
  pose proof (pow2_double (word_bits v) k ltac:(lia)) as HW.
  pose proof (Z.mod_pos_bound (tail b) _ HH) as Rm.
  pose proof (Z.mod_pos_bound (tail b) (2 ^ k) ltac:(lia)) as Rc.
  unfold in_bounds, subw in *.
  set (W := word_bits v) in *. set (H := 2 ^ (k - 1)) in *.
  set (C := 2 ^ k) in *.
  split; [reflexivity | split; [exact Hsn |]].
  destruct Hc
    as [(E0 & Eq & Em & Hhalf) | [(E1 & Ehi & Eq & Em) | (E1 & Elo & Nq)]].
  - rewrite Eq, Z.eqb_refl. cbn [idx0 idx1 cnt0 cnt1 len].
    rewrite E0, Em, Z.mul_0_r, Z.add_0_r.
    destruct Hhalf as [Elo | Ehi]; rewrite ?Elo, ?Ehi in *;
      unwrap W; decide_tests; cbn [idx0 idx1 cnt0 cnt1 len]; unwrap W;
      repeat split; lia.
  - rewrite Eq, Z.eqb_refl. cbn [idx0 idx1 cnt0 cnt1 len].
    rewrite E1, Em, Ehi, Z.mul_1_r.
    unwrap W; decide_tests; cbn [idx0 idx1 cnt0 cnt1 len]; unwrap W;
      repeat split; lia.
  - apply not_eq_sym, Z.eqb_neq in Nq. rewrite Nq.
    cbn [idx0 idx1 cnt0 cnt1 len].
    rewrite E1, Elo, Z.mul_1_r.
    unwrap W; decide_tests; cbn [idx0 idx1 cnt0 cnt1 len]; unwrap W;
      repeat split; lia.
Qed.
End WriterSlice.

Section ReaderSlice.

Variable v : Variant.
Variables k r : Z.
Variable b : Broadcast.
Hypothesis Hk : 0 <= k < word_bits v.
Hypothesis Ht : 0 <= tail b < 2 ^ word_bits v.
Hypothesis Hr : 0 <= r < 2 ^ word_bits v.
Hypothesis Hd : subw (word_bits v) (tail b) r <= 2 ^ k - 1.

Lemma reader_slice_spec :
  let s := brdct_reader_slice v b k r in
  in_bounds k s /\ idx0 s = r mod 2 ^ k /\
  len s = subw (word_bits v) (tail b) r.
Proof.
  unfold brdct_reader_slice. cbv zeta.
  rewrite mask_val by lia.
  rewrite !land_mask, !Z.shiftr_div_pow2 by lia.
  pose proof (pow2_pos k ltac:(lia)) as HC.
  pose proof (pow2_double (word_bits v) k ltac:(lia)) as HW.
  pose proof (Z.mod_pos_bound (tail b) _ HC) as Rt.
  pose proof (Z.mod_pos_bound r _ HC) as Rr.
  unfold in_bounds, subw, addw in *.
  pose proof (blocks_cases (word_bits v) k r (tail b) Hk Hr Ht ltac:(lia))
    as Hb.
  set (W := word_bits v) in *. set (C := 2 ^ k) in *.
  destruct Hb as [(Eq & Hle & Ed & _) | (Nq & Hle & Ed & _)].
  - rewrite Eq, Z.eqb_refl. cbn [negb idx0 idx1 cnt0 cnt1 len].
    rewrite Ed. unwrap W. repeat split; lia.
  - apply not_eq_sym, Z.eqb_neq in Nq. rewrite Nq.
    cbn [negb idx0 idx1 cnt0 cnt1 len].
    rewrite Ed in *. unwrap W. repeat split; lia.
Qed.

End ReaderSlice.

(** X18 (slices stay in bounds while the reader is behind [tail]).  For a
    capacity exponent [k] below the width of [Reader], where the shift
    [*r >> k] is defined, and a reader counter with [r <= tail] and
    [tail - r <= C - 1], the slice of [brdct_reader_slice] has
    [idx[0] + cnt[0] <= C], [cnt[1] < C] and
    [len = cnt[0] + cnt[1] = tail - r <= C - 1]; the slice of
    [brdct_writer_slice] is in bounds too, the invariant
    [tail - head <= C - 1] on the derived head holding in every state word
    ([derived_head_distance]). *)
Theorem slices_in_bounds_reader_behind (v : Variant) (b : Broadcast)
    (k r : Z) :
  1 <= k < reader_bits v -> reader_bits v <= word_bits v ->
  tail_bits v <= word_bits v ->
  0 <= tail b < 2 ^ tail_bits v -> 0 <= hstate b <= 1 ->
  0 <= r < 2 ^ reader_bits v ->
  r <= tail b -> tail b - r <= 2 ^ k - 1 ->
  in_bounds k (brdct_reader_slice v b k r) /\
  len (brdct_reader_slice v b k r) = tail b - r /\
  in_bounds k (snd (brdct_writer_slice v b k)).
Proof.
  intros Hk HR HT Ht Hs Hr Hle Hd.
  assert (0 <= tail_bits v).
  { destruct (Z_le_gt_dec 0 (tail_bits v)); [assumption |].
    rewrite (Z.pow_neg_r 2 (tail_bits v)) in Ht by lia. lia. }
  assert (HTW : 2 ^ tail_bits v <= 2 ^ word_bits v)
    by (apply Z.pow_le_mono_r; lia).
  assert (HRW : 2 ^ reader_bits v <= 2 ^ word_bits v)
    by (apply Z.pow_le_mono_r; lia).
  assert (Ed : subw (word_bits v) (tail b) r = tail b - r)
    by (apply wrap_small; lia).
  destruct (reader_slice_spec v k r b ltac:(lia) ltac:(lia) ltac:(lia)
              ltac:(rewrite Ed; lia)) as (Hb & _ & El).
  rewrite Ed in El.
  split; [exact Hb | split; [exact El |]].
  apply (writer_slice_spec v k b ltac:(lia) ltac:(lia) Hs).
Qed.

(** Capacity 8, [tail = 13] with the writer one half-block ahead, and a
    reader at 9: the reader is given cells 1..4, the writer cells 5..6. *)
Lemma slices_in_bounds_reader_behind_witness :
  in_bounds 3 (brdct_reader_slice wide (mkBroadcast 13 1 0 1) 3 9) /\
  len (brdct_reader_slice wide (mkBroadcast 13 1 0 1) 3 9) = 13 - 9 /\
  in_bounds 3 (snd (brdct_writer_slice wide (mkBroadcast 13 1 0 1) 3)).
Proof.
  apply (slices_in_bounds_reader_behind wide (mkBroadcast 13 1 0 1) 3 9);
    repeat split; vm_compute; congruence.
Defined.

(** C9 (reader counter narrower than [tail], 64-bit layout).  [tail] has
    33 bits and [Reader] 32.  Once [tail] is in [[2^32, 2^33)], a reader
    that has consumed everything, whose counter is then [tail mod 2^32],
    is [2^32] behind in the subtraction of [brdct_reader_slice], and is
    returned [len = 2^32] instead of 0. *)
Theorem reader_slice_width_mismatch (b : Broadcast) (k : Z) :
  2 ^ 32 <= tail b < 2 ^ 33 ->
  tail_bits wide = 33 /\ reader_bits wide = 32 /\
  subw (word_bits wide) (tail b) (wrap (reader_bits wide) (tail b)) = 2 ^ 32 /\
  len (brdct_reader_slice wide b k (wrap (reader_bits wide) (tail b)))
    = 2 ^ 32.
Proof.
  intros Ht. split; [reflexivity | split; [reflexivity |]].
  assert (Er : wrap (reader_bits wide) (tail b) = tail b - 2 ^ 32).
  { apply (wrap_unique _ _ 1); cbn [reader_bits wide]; lia. }
  assert (Ed : subw (word_bits wide) (tail b) (tail b - 2 ^ 32) = 2 ^ 32).
  { unfold subw. replace (tail b - (tail b - 2 ^ 32)) with (2 ^ 32) by lia.
    now vm_compute. }
  rewrite Er. split; [exact Ed |].
  unfold brdct_reader_slice. cbv zeta. rewrite Ed.
  destruct (negb _); cbn [idx0 idx1 cnt0 cnt1 len].
  - unfold addw, subw, wrap. rewrite Zplus_mod_idemp_l.
    rewrite Z.sub_add. now vm_compute.
  - now vm_compute.
Qed.

Lemma reader_slice_width_mismatch_witness :
  len (brdct_reader_slice wide (mkBroadcast (2 ^ 32 + 5) 1 0 0) 3
         (wrap (reader_bits wide) (2 ^ 32 + 5))) = 2 ^ 32.
Proof.
  apply (reader_slice_width_mismatch (mkBroadcast (2 ^ 32 + 5) 1 0 0) 3).
  simpl; lia.
Defined.

(** Below [2^32] the same reader is returned the empty slice. *)
Lemma reader_slice_caught_up (b : Broadcast) (k : Z) :
  0 <= k < 32 -> 0 <= tail b < 2 ^ 32 ->
  len (brdct_reader_slice wide b k (wrap (reader_bits wide) (tail b))) = 0.
Proof.
  intros Hk Ht.
  rewrite wrap_small by (simpl; lia).
  assert (H64 : (2 ^ 32 < 2 ^ 64)) by reflexivity.
  pose proof (pow2_pos k ltac:(lia)).
  destruct (reader_slice_spec wide k (tail b) b) as (_ & _ & E);
    try (simpl; lia).
  - unfold subw. rewrite Z.sub_diag. unfold wrap. rewrite Z.mod_0_l; simpl; lia.
  - rewrite E. unfold subw. rewrite Z.sub_diag. reflexivity.
Qed.

(** C3, as stated, fails: with no reader attached and [hstate == 1],
    [brdct_writer_slice] leaves [hstate] set.  The word is the one reached
    from the zero word by a first writer commit of five cells on a queue of
    eight. *)
Lemma writer_slice_no_reader_counterexample :
  brdct_writer_commit wide brdct_zero 3 (mkSlice 0 0 2 0 7)
    = mkBroadcast 5 0 0 1 /\
  nreaders (mkBroadcast 5 0 0 1) = 0 /\
  hstate (mkBroadcast 5 0 0 1) = 1 /\
  hstate (fst (brdct_writer_slice wide (mkBroadcast 5 0 0 1) 3)) = 1.
Proof. repeat split. Qed.

(** C3 as amended: with [hstate == 1], [brdct_writer_slice] resets
    [hstate] exactly when at least one reader is attached and
    [ncycled >= nreaders], and it then resets [ncycled] too; with no reader
    attached it leaves the state word as it is. *)
Theorem writer_slice_reset (v : Variant) (b : Broadcast) (k : Z) :
  hstate b = 1 ->
  (hstate (fst (brdct_writer_slice v b k)) = 0 <->
     nreaders b <> 0 /\ nreaders b <= ncycled b) /\
  (nreaders b <> 0 /\ nreaders b <= ncycled b ->
     fst (brdct_writer_slice v b k) = mkBroadcast (tail b) (nreaders b) 0 0) /\
  (nreaders b = 0 -> fst (brdct_writer_slice v b k) = b).
Proof.
  intros Hs. unfold brdct_writer_slice. cbv zeta. simpl fst.
  destruct (Z.eqb_spec (nreaders b) 0) as [E0 | N0];
    destruct (Z.ltb_spec (ncycled b) (nreaders b)) as [Hlt | Hge];
    cbn [orb hstate]; repeat split; try intros; try lia; try reflexivity.
Qed.

Lemma writer_slice_reset_witness :
  fst (brdct_writer_slice wide (mkBroadcast 5 0 0 1) 3) = mkBroadcast 5 0 0 1 /\
  fst (brdct_writer_slice wide (mkBroadcast 5 2 2 1) 3) = mkBroadcast 5 2 0 0.
Proof.
  split.
  - apply (writer_slice_reset wide (mkBroadcast 5 0 0 1) 3); reflexivity.
  - apply (writer_slice_reset wide (mkBroadcast 5 2 2 1) 3).
    + reflexivity.
    + simpl; lia.
Defined.




(** The contract of [brdct_attach_reader] in the 64-bit layout: it fails
    exactly at [nreaders == 32767], leaving the word and [*r] as they were;
    otherwise it adds one to [nreaders], keeps the other fields and stores
    the derived head, converted to [Reader], in [*r]. *)
Lemma attach_reader_wide (b : Broadcast) (k r : Z) :
  0 <= nreaders b < 2 ^ count_bits wide ->
  (fst (fst (brdct_attach_reader wide b k r)) = -1 <-> nreaders b = 32767) /\
  (nreaders b = 32767 -> brdct_attach_reader wide b k r = (-1, b, r)) /\
  (nreaders b <> 32767 ->
     brdct_attach_reader wide b k r
     = (0, mkBroadcast (tail b) (nreaders b + 1) (ncycled b) (hstate b),
        wrap (reader_bits wide) (derived_head wide b k))).
Proof.
  intros Hn. unfold brdct_attach_reader. cbv zeta.
  change (Z.shiftr (Z.shiftl 1 15 - 1) (BRDCT_RESIZE wide)) with 32767.
  change (2 ^ count_bits wide) with 32768 in Hn.
  destruct (Z.eqb_spec (nreaders b) 32767) as [E | N]; cbn [fst].
  - repeat split; try intros; try reflexivity; try lia.
  - repeat split; try intros; try lia.
    unfold derived_head. cbn [tail hstate].
    rewrite (wrap_small (count_bits wide)); [reflexivity |].
    change (2 ^ count_bits wide) with 32768. lia.
Qed.

(** C7 fails in the 32-bit layout.  There [nreaders] has 7 bits, and the
    test of [brdct_attach_reader] compares it with
    [((1 << 15) - 1) >> 1 = 16383], a value the field never holds: the call
    never returns -1, and at [nreaders == 127] it wraps [nreaders] to 0 and
    hands out one more reader. *)
Theorem attach_reader_narrow_ceiling (b : Broadcast) (k r : Z) :
  0 <= nreaders b < 2 ^ count_bits narrow ->
  count_bits narrow = 7 /\
  Z.shiftr (Z.shiftl 1 15 - 1) (BRDCT_RESIZE narrow) = 16383 /\
  fst (fst (brdct_attach_reader narrow b k r)) = 0 /\
  (nreaders b = 2 ^ 7 - 1 ->
     nreaders (snd (fst (brdct_attach_reader narrow b k r))) = 0).
Proof.
  intros Hn. change (2 ^ count_bits narrow) with 128 in Hn.
  split; [reflexivity | split; [reflexivity |]].
  unfold brdct_attach_reader. cbv zeta.
  change (Z.shiftr (Z.shiftl 1 15 - 1) (BRDCT_RESIZE narrow)) with 16383.
  destruct (Z.eqb_spec (nreaders b) 16383) as [E | N]; [lia |].
  cbn [fst snd nreaders]. split; [reflexivity |].
  intros ->. reflexivity.
Qed.

(** At the ceiling: 127 readers attached, one more call. *)
Lemma attach_reader_narrow_ceiling_witness :
  brdct_attach_reader narrow (mkBroadcast 5 127 0 1) 3 99
    = (0, mkBroadcast 5 0 0 1, 0) /\
  fst (fst (brdct_attach_reader narrow (mkBroadcast 5 127 0 1) 3 99)) = 0.
Proof.
  split; [reflexivity |].
  destruct (attach_reader_narrow_ceiling (mkBroadcast 5 127 0 1) 3 99)
    as (_ & _ & E & _); [simpl; lia | exact E].
Defined.

(** The word with [nreaders == 127] is reached by 127 calls from the zero
    word, and the 128th leaves 128 readers attached with [nreaders == 0]. *)
Lemma attach_reader_narrow_reached :
  exists st,
    run narrow 3 (repeat attach_reader 128) start = Some st /\
    length (readers st) = 128%nat /\ nreaders (word st) = 0.
Proof. eexists. split; [now vm_compute | split; reflexivity]. Qed.

(** C1 fails once [tail] has passed [2^32] (64-bit layout, capacity
    [2^31]).  After [one_more_cell], every call of which respects the
    contract, the only reader is at [2^30] and [tail] at [5 * 2^30 - 1]:
    [tail - r] is [2^32 - 1], not below the capacity, whether the
    difference is taken in 32, 33 or 64 bits. *)
Theorem no_overwrite_fails_past_reader_wrap :
  exists st,
    run wide 31 one_more_cell start = Some st /\
    reachable wide 31 st /\
    st = mkSystem (mkBroadcast (5 * 2 ^ 30 - 1) 1 2 1)
           [mkReader (2 ^ 30) None] None /\
    ~ no_overwrite 32 31 st /\ ~ no_overwrite 33 31 st /\
    ~ no_overwrite 64 31 st.
Proof.
  eexists. split; [now vm_compute |].
  split; [exists one_more_cell; now vm_compute |].
  split; [reflexivity |].
  repeat split; intros Hno;
    specialize (Hno _ (or_introl eq_refl));
    vm_compute in Hno; discriminate.
Qed.

(** C2 fails on the same run: its last call, a commit of one cell out of
    the slice of [2^32] cells just returned, crosses a half-block boundary
    for a reader already counted, and leaves [ncycled == 2] with one reader
    attached. *)
Theorem census_fails_past_reader_wrap :
  exists st,
    run wide 31 one_more_cell start = Some st /\
    reachable wide 31 st /\
    nreaders (word st) = 1 /\ ncycled (word st) = 2 /\
    ~ census (word st).
Proof.
  eexists. split; [now vm_compute |].
  split; [exists one_more_cell; now vm_compute |].
  split; [reflexivity |].
  split; [reflexivity |].
  intros [Hle _]. vm_compute in Hle. apply Hle. reflexivity.
Qed.

(** The slice that run is given just before its last call. *)
Lemma slice_past_reader_wrap :
  exists st,
    run wide 31 (past_reader_wrap ++ [reader_slice 0%nat]) start = Some st /\
    map held (readers st)
      = [Some (mkSlice (2 ^ 30 - 1) 0 (2 ^ 32 - 2 ^ 30 + 1) (2 ^ 30 - 1)
                 (2 ^ 32))].
Proof. eexists. split; now vm_compute. Qed.

(** C10 fails once [tail] has passed [2^32] (64-bit layout, capacity
    [2^31]).  After [past_reader_wrap], every call of which respects the
    contract, the only reader has consumed everything that was produced:
    its counter is [tail mod 2^32], so that [tail - r], taken in the width
    of [Reader], is 0, within [[0, C-1]].  The slice [brdct_reader_slice]
    then returns has [idx[0] + cnt[0] = 2^32] and [len = 2^32], beyond the
    [2^31] cells of the payload array. *)
Theorem reader_slice_out_of_bounds_past_reader_wrap :
  exists st,
    run wide 31 past_reader_wrap start = Some st /\
    reachable wide 31 st /\
    st = mkSystem (mkBroadcast (5 * 2 ^ 30 - 1) 1 1 1)
           [mkReader (2 ^ 30 - 1) None] None /\
    2 ^ 30 - 1 = wrap (reader_bits wide) (tail (word st)) /\
    subw (reader_bits wide) (tail (word st)) (2 ^ 30 - 1) = 0 /\
    brdct_reader_slice wide (word st) 31 (2 ^ 30 - 1)
      = mkSlice (2 ^ 30 - 1) 0 (2 ^ 32 - 2 ^ 30 + 1) (2 ^ 30 - 1) (2 ^ 32) /\
    2 ^ 31 < idx0 (brdct_reader_slice wide (word st) 31 (2 ^ 30 - 1))
             + cnt0 (brdct_reader_slice wide (word st) 31 (2 ^ 30 - 1)) /\
    ~ in_bounds 31 (brdct_reader_slice wide (word st) 31 (2 ^ 30 - 1)).
Proof.
  eexists. split; [now vm_compute |].
  split; [exists past_reader_wrap; now vm_compute |].
  split; [reflexivity |].
  split; [now vm_compute |].
  split; [now vm_compute |].
  split; [now vm_compute |].
  split; [now vm_compute |].
  intros (_ & _ & Hle & _). vm_compute in Hle. apply Hle. reflexivity.
Qed.

(** The 32-bit layout has the same defect one size down ([tail] of 17
    bits, [Reader] of 16): on a queue of 1024 cells, after 64 KiB have gone
    through, the reader that has consumed everything is given 65536 cells,
    65025 of them from index 511 on. *)
Lemma slice_past_reader_wrap_narrow :
  exists st,
    run narrow 10 (past_reader_wrap_narrow ++ [reader_slice 0%nat]) start
      = Some st /\
    word st = mkBroadcast 66047 1 1 1 /\
    readers st = [mkReader 511 (Some (mkSlice 511 0 65025 511 65536))].
Proof. eexists. split; [now vm_compute | split; reflexivity]. Qed.

(** ** Before the reader counters wrap *)

(** *** Lists of readers *)

Lemma nth_error_middle {A : Type} (l : list A) (i : nat) (x : A) :
  nth_error l i = Some x ->
  l = firstn i l ++ x :: skipn (S i) l.
Proof.
  revert i. induction l as [| a l IH]; intros [| i] E; simpl in E;
    try discriminate.
  - injection E as ->. reflexivity.
  - simpl. f_equal. apply IH, E.
Qed.

Lemma crossed_app s l1 l2 :
  crossed s (l1 ++ l2) = crossed s l1 + crossed s l2.
Proof.
  induction l1 as [| rd l1 IH]; simpl; [reflexivity | rewrite IH; lia].
Qed.

Lemma crossed_range s l : 0 <= crossed s l <= Z.of_nat (length l).
Proof.
  induction l as [| rd l IH]; simpl length; simpl crossed; [lia |].
  destruct (s <=? pos rd); lia.
Qed.

Lemma crossed_all s l :
  crossed s l = Z.of_nat (length l) -> Forall (fun rd => s <= pos rd) l.
Proof.
  induction l as [| rd l IH]; simpl length; simpl crossed; intros E;
    constructor; pose proof (crossed_range s l);
    destruct (Z.leb_spec s (pos rd)); try lia.
  apply IH. lia.
Qed.

Lemma crossed_none s l :
  Forall (fun rd => pos rd < s) l -> crossed s l = 0.
Proof.
  induction 1 as [| rd l Hrd _ IH]; simpl; [reflexivity |].
  destruct (Z.leb_spec s (pos rd)); lia.
Qed.

(** *** Half-blocks *)

Lemma half_iff H t x :
  0 < H -> (x / H = t / H <-> t - t mod H <= x < t - t mod H + H).
Proof.
  intros HH.
  pose proof (Z.div_mod t H ltac:(lia)) as Et.
  pose proof (Z.div_mod x H ltac:(lia)) as Ex.
  pose proof (Z.mod_pos_bound t H HH).
  pose proof (Z.mod_pos_bound x H HH).
  split.
  - intros E. rewrite E in Ex. lia.
  - intros Hx. symmetry.
    apply Z.div_unique_pos with (x - (t - t mod H)); lia.
Qed.

Lemma same_half_block H q x y :
  0 < H -> H * q <= x < H * q + H -> H * q <= y < H * q + H ->
  x / H = y / H.
Proof.
  intros HH Hx Hy.
  rewrite <- (Z.div_unique_pos x H q (x - H * q)) by lia.
  apply Z.div_unique_pos with (y - H * q); lia.
Qed.

Lemma other_half_block H q x y :
  0 < H -> x < H * q <= y -> x / H <> y / H.
Proof.
  intros HH [Hx Hy].
  pose proof (Z.div_lt_upper_bound x H q HH Hx).
  pose proof (Z.div_le_lower_bound y H q HH Hy). lia.
Qed.

Lemma lowered_spec s c0 c1 :
  lowered s c0 c1 = true -> 0 <= c0 <= cnt0 s /\ 0 <= c1 <= cnt1 s.
Proof.
  unfold lowered. rewrite !andb_true_iff, !Z.leb_le. lia.
Qed.

(** What a commit consumes or produces, given the counts left. *)
Lemma commit_count w s c0 c1 :
  sums s -> len s < 2 ^ w -> 0 <= c0 <= cnt0 s -> 0 <= c1 <= cnt1 s ->
  subw w (len s) (addw w c0 c1) = len s - (c0 + c1) /\
  0 <= len s - (c0 + c1) <= len s.
Proof.
  intros (H0 & H1 & El) Hlt Hc0 Hc1. unfold subw, addw.
  rewrite (wrap_small w (c0 + c1)) by lia.
  rewrite wrap_small by lia. lia.
Qed.

Lemma writer_slice_word v b k :
  fst (brdct_writer_slice v b k)
  = if (nreaders b =? 0) || (ncycled b <? nreaders b) then b
    else mkBroadcast (tail b) (nreaders b) 0 0.
Proof. reflexivity. Qed.

Lemma attach_reader_cases v b k r :
  (nreaders b = Z.shiftr (Z.shiftl 1 15 - 1) (BRDCT_RESIZE v) /\
   brdct_attach_reader v b k r = (-1, b, r)) \/
  (nreaders b <> Z.shiftr (Z.shiftl 1 15 - 1) (BRDCT_RESIZE v) /\
   brdct_attach_reader v b k r
   = (0, mkBroadcast (tail b) (wrap (count_bits v) (nreaders b + 1))
           (ncycled b) (hstate b),
      wrap (reader_bits v) (derived_head v b k))).
Proof.
  unfold brdct_attach_reader. cbv zeta.
  destruct (Z.eqb_spec (nreaders b)
              (Z.shiftr (Z.shiftl 1 15 - 1) (BRDCT_RESIZE v)));
    [left | right]; split; auto.
Qed.

Section Below.

Variable v : Variant.
Variable k : Z.
Hypothesis Hk : 1 <= k < reader_bits v.
Hypothesis HR : reader_bits v < tail_bits v.
Hypothesis HT : tail_bits v <= word_bits v.
Hypothesis Hceil :
  Z.shiftr (Z.shiftl 1 15 - 1) (BRDCT_RESIZE v) = 2 ^ count_bits v - 1.

Lemma below_sizes :
  0 < 2 ^ (k - 1) /\ 2 ^ k = 2 * 2 ^ (k - 1) /\
  2 * 2 ^ k <= 2 ^ reader_bits v /\
  2 * 2 ^ reader_bits v <= 2 ^ tail_bits v /\
  2 ^ tail_bits v <= 2 ^ word_bits v /\
  0 < 2 ^ count_bits v.
Proof.
  repeat split.
  - apply pow2_pos; lia.
  - apply pow2_half; lia.
  - apply pow2_double; lia.
  - apply pow2_double; lia.
  - apply Z.pow_le_mono_r; lia.
  - assert (0 <= Z.shiftr (Z.shiftl 1 15 - 1) (BRDCT_RESIZE v))
      by (apply Z.shiftr_nonneg; simpl; lia). lia.
Qed.

(** Unfolds the invariant into arithmetic on the fields. *)
Ltac fields :=
  unfold head_of, half_start in *;
  cbn [word readers wheld tail nreaders ncycled hstate pos held] in *.

(** In a consistent state the head computed in [brdct_t] is the integer
    head. *)
Lemma head_of_bounds st :
  consistent v k st ->
  0 <= head_of k (word st) <= tail (word st) /\
  tail (word st) - head_of k (word st) <= 2 ^ k - 1 /\
  derived_head v (word st) k = head_of k (word st).
Proof.
  intros I. destruct below_sizes as (HH & EC & HCR & HRT & HTW & _).
  pose proof (c_tail _ _ _ I) as Ht. pose proof (c_hstate _ _ _ I) as Hs.
  rewrite derived_head_val by lia. fields.
  pose proof (Z.mod_pos_bound (tail (word st)) (2 ^ (k - 1)) HH).
  pose proof (Z.div_mod (tail (word st)) (2 ^ (k - 1)) ltac:(lia)).
  pose proof (Z.mod_le (tail (word st)) (2 ^ (k - 1)) ltac:(lia) HH).
  assert (Hq : hstate (word st) = 1 ->
               2 ^ (k - 1) <= tail (word st) - tail (word st) mod 2 ^ (k - 1)).
  { intros E1. destruct Hs as [E0 | [_ Hge]]; [lia |].
    assert (1 <= tail (word st) / 2 ^ (k - 1))
      by (apply Z.div_le_lower_bound; lia).
    nia. }
  destruct Hs as [E0 | [E1 Hge]].
  - rewrite E0, Z.mul_0_r, Z.sub_0_r. rewrite wrap_small by lia. lia.
  - specialize (Hq E1). rewrite E1, Z.mul_1_r. rewrite wrap_small by lia. lia.
Qed.

Lemma consistent_start : consistent v k start.
Proof.
  destruct below_sizes as (HH & EC & HCR & HRT & HTW & Hcb).
  constructor; simpl; try lia.
  - constructor.
  - discriminate.
Qed.

Lemma consistent_attach st st' :
  consistent v k st -> call v k attach_reader st = Some st' ->
  consistent v k st'.
Proof.
  intros I. destruct (head_of_bounds st I) as (Hh & Hd & Edh).
  destruct below_sizes as (HH & EC & HCR & HRT & HTW & _).
  unfold call.
  destruct (attach_reader_cases v (word st) k 0) as [[E ->] | [N ->]].
  - simpl. intros [= <-]. destruct st, I. constructor; assumption.
  - simpl. intros [= <-]. rewrite Edh. rewrite Hceil in N.
    destruct I as [Ht Hs Hn Hc Hcy Hrd Hw].
    destruct st as [[t n nc hs] l w]. fields.
      rewrite (wrap_small (count_bits v)) by lia.
    rewrite (wrap_small (reader_bits v)) by lia.
    constructor; fields; try assumption; try lia.
    + rewrite length_app, Nat2Z.inj_add, Hn. reflexivity.
    + rewrite Hcy, crossed_app. simpl crossed.
      destruct Hs as [-> | [-> _]]; [reflexivity |].
      destruct (Z.leb_spec (t - t mod 2 ^ (k - 1))
                  (t - t mod 2 ^ (k - 1) - 2 ^ (k - 1) * 1)); lia.
    + apply Forall_app. split; [exact Hrd |].
      constructor; [| constructor].
      split; [| discriminate]. fields. lia.
Qed.

Lemma consistent_detach st st' i :
  consistent v k st -> call v k (detach_reader i) st = Some st' ->
  consistent v k st'.
Proof.
  intros I. destruct (head_of_bounds st I) as (Hh & Hd & _).
  destruct below_sizes as (HH & EC & HCR & HRT & HTW & _).
  destruct I as [Ht Hs Hn Hc Hcy Hrd Hw].
  destruct st as [[t n nc hs] l w]. fields.
  unfold call. fields.
  destruct (nth_error l i) as [rd |] eqn:Ei; [| discriminate].
  intros [= <-].
  pose proof (nth_error_middle _ _ _ Ei) as El.
  unfold remove_nth.
  set (l1 := firstn i l) in *. set (l2 := skipn (S i) l) in *.
  clearbody l1 l2. rewrite El in Hn, Hcy, Hrd. clear El Ei.
  rewrite length_app in Hn. simpl length in Hn.
  rewrite crossed_app in Hcy. simpl crossed in Hcy.
  apply Forall_app in Hrd as [Hrd1 Hrd2].
  apply Forall_cons_iff in Hrd2 as [[Hpos _] Hrd2]. fields.
  pose proof (crossed_range (t - t mod 2 ^ (k - 1)) l1).
  pose proof (crossed_range (t - t mod 2 ^ (k - 1)) l2).
  unfold brdct_detach_reader. cbv zeta. fields.
  rewrite !Z.shiftr_div_pow2 by lia.
  rewrite (wrap_small _ (n - 1)) by lia.
  pose proof (half_iff (2 ^ (k - 1)) t (pos rd) HH) as Hhalf.
  assert (Ecase :
    (negb (hs =? 0) && (t / 2 ^ (k - 1) =? pos rd / 2 ^ (k - 1)) = true /\
       hs = 1 /\
       t - t mod 2 ^ (k - 1) <= pos rd) \/
    (negb (hs =? 0) && (t / 2 ^ (k - 1) =? pos rd / 2 ^ (k - 1)) = false /\
       (hs = 0 \/ pos rd < t - t mod 2 ^ (k - 1)))).
  { destruct Hs as [-> | [-> _]]; [right; split; [reflexivity | lia] |].
    destruct (Z.eqb_spec (t / 2 ^ (k - 1)) (pos rd / 2 ^ (k - 1))) as [E | N].
    - left. repeat split. lia.
    - right. split; [reflexivity |]. right.
      destruct (Z_lt_ge_dec (pos rd) (t - t mod 2 ^ (k - 1))); [assumption |].
      exfalso. apply N. symmetry. apply Hhalf.
      pose proof (Z.mod_pos_bound t (2 ^ (k - 1)) HH). lia. }
  destruct Ecase as [(-> & -> & Hx) | (-> & Hx)].
  - destruct (Z.leb_spec (t - t mod 2 ^ (k - 1)) (pos rd)); [| lia].
    rewrite (wrap_small _ (nc - 1)) by lia.
    constructor; fields; try assumption; try lia.
    + rewrite length_app. lia.
    + rewrite crossed_app. lia.
    + apply Forall_app. split; assumption.
  - constructor; fields; try assumption; try lia.
    + rewrite length_app. lia.
    + rewrite crossed_app. destruct Hx as [-> | Hx]; [now rewrite Hcy |].
      destruct (Z.leb_spec (t - t mod 2 ^ (k - 1)) (pos rd)); lia.
    + apply Forall_app. split; assumption.
Qed.

Lemma consistent_reader_slice st st' i :
  consistent v k st -> call v k (reader_slice i) st = Some st' ->
  consistent v k st'.
Proof.
  intros I. destruct (head_of_bounds st I) as (Hh & Hd & _).
  destruct below_sizes as (HH & EC & HCR & HRT & HTW & _).
  destruct I as [Ht Hs Hn Hc Hcy Hrd Hw].
  destruct st as [[t n nc hs] l w]. fields.
  unfold call. fields.
  destruct (nth_error l i) as [rd |] eqn:Ei; [| discriminate].
  intros [= <-].
  pose proof (nth_error_middle _ _ _ Ei) as El.
  unfold set_nth.
  set (l1 := firstn i l) in *. set (l2 := skipn (S i) l) in *.
  clearbody l1 l2. rewrite El in Hn, Hcy, Hrd. clear El Ei.
  rewrite length_app in Hn. simpl length in Hn.
  rewrite crossed_app in Hcy. simpl crossed in Hcy.
  apply Forall_app in Hrd as [Hrd1 Hrd2].
  apply Forall_cons_iff in Hrd2 as [[Hpos _] Hrd2]. fields.
  assert (Ed : subw (word_bits v) t (pos rd) = t - pos rd)
    by (apply wrap_small; lia).
  destruct (reader_slice_spec v k (pos rd) (mkBroadcast t n nc hs))
    as ((_ & H0 & _ & _ & H1 & Hsum & _) & _ & Elen); fields;
    try rewrite Ed; try lia.
  rewrite Ed in Elen.
  constructor; fields; try assumption.
  - rewrite length_app. exact Hn.
  - rewrite crossed_app. exact Hcy.
  - apply Forall_app. split; [assumption |].
    constructor; [| assumption].
    split; fields; [lia |]. intros s [= <-].
    unfold sums. lia.
Qed.

Lemma consistent_reader_commit st st' i c0 c1 :
  consistent v k st -> call v k (reader_commit i c0 c1) st = Some st' ->
  consistent v k st'.
Proof.
  intros I. destruct (head_of_bounds st I) as (Hh & Hd & _).
  destruct below_sizes as (HH & EC & HCR & HRT & HTW & _).
  destruct I as [Ht Hs Hn Hc Hcy Hrd Hw].
  destruct st as [[t n nc hs] l w]. fields.
  unfold call. fields.
  destruct (nth_error l i) as [[r [s |]] |] eqn:Ei; try discriminate.
  destruct (lowered s c0 c1) eqn:Elow; [| discriminate].
  apply lowered_spec in Elow as [Hc0 Hc1].
  pose proof (nth_error_middle _ _ _ Ei) as El.
  unfold set_nth.
  set (l1 := firstn i l) in *. set (l2 := skipn (S i) l) in *.
  clearbody l1 l2. rewrite El in Hn, Hcy, Hrd. clear El Ei.
  rewrite length_app in Hn. simpl length in Hn.
  rewrite crossed_app in Hcy. simpl crossed in Hcy.
  apply Forall_app in Hrd as [Hrd1 Hrd2].
  apply Forall_cons_iff in Hrd2 as [[Hpos Hheld] Hrd2]. fields.
  destruct (Hheld s eq_refl) as [Hsum Hlen]. clear Hheld.
  pose proof (crossed_range (t - t mod 2 ^ (k - 1)) l1).
  pose proof (crossed_range (t - t mod 2 ^ (k - 1)) l2).
  pose proof Hsum as (Hs0 & Hs1 & Hs2).
  destruct (commit_count (word_bits v) s c0 c1 Hsum ltac:(lia) Hc0 Hc1)
    as [Ecnt Rcnt].
  unfold brdct_reader_commit. cbv zeta. fields.
  cbn [idx0 idx1 cnt0 cnt1 len]. rewrite Ecnt.
  set (cnt := len s - (c0 + c1)) in *.
  unfold addw. rewrite (wrap_small (word_bits v)) by lia.
  rewrite (wrap_small (reader_bits v)) by lia.
  rewrite !Z.shiftr_div_pow2 by lia.
  pose proof (Z.div_mod t (2 ^ (k - 1)) ltac:(lia)) as Et.
  pose proof (Z.mod_pos_bound t (2 ^ (k - 1)) HH) as Rt.
  set (S := t - t mod 2 ^ (k - 1)) in *.
  assert (ES : S = 2 ^ (k - 1) * (t / 2 ^ (k - 1))) by (unfold S; lia).
  destruct (Z.eqb_spec ((r + cnt) / 2 ^ (k - 1)) (r / 2 ^ (k - 1)))
    as [E | N]; intros [= <-].
  - constructor; fields; try assumption; try lia.
    + rewrite length_app. exact Hn.
    + rewrite crossed_app. simpl crossed. fields. fold S.
      destruct Hs as [-> | [-> _]]; [now rewrite Hcy |].
      rewrite Hcy.
      destruct (Z.leb_spec S r); destruct (Z.leb_spec S (r + cnt));
        try lia.
      exfalso. apply (other_half_block (2 ^ (k - 1)) (t / 2 ^ (k - 1))
                        r (r + cnt) HH); [lia | congruence].
    + apply Forall_app. split; [assumption |].
      constructor; [| assumption].
      split; fields; [lia | discriminate].
  - assert (Hcross : hs = 1 /\ r < S <= r + cnt).
    { destruct Hs as [-> | [-> _]].
      - exfalso. apply N.
        apply (same_half_block _ (t / 2 ^ (k - 1))); lia.
      - split; [reflexivity |].
        destruct (Z_lt_ge_dec r S) as [Hr | Hr];
          destruct (Z_lt_ge_dec (r + cnt) S) as [Hr' | Hr']; try lia;
          exfalso; apply N.
        + apply (same_half_block _ (t / 2 ^ (k - 1) - 1)); lia.
        + apply (same_half_block _ (t / 2 ^ (k - 1))); lia. }
    destruct Hcross as (-> & Hr & Hr').
    destruct (Z.leb_spec S r); [lia |].
    rewrite (wrap_small (count_bits v)) by lia.
    constructor; fields; try assumption; try lia.
    + rewrite length_app. exact Hn.
    + rewrite crossed_app. simpl crossed. fields. fold S.
      destruct (Z.leb_spec S (r + cnt)); lia.
    + apply Forall_app. split; [assumption |].
      constructor; [| assumption].
      split; fields; [lia | discriminate].
Qed.

Lemma consistent_writer_slice st st' :
  consistent v k st -> call v k writer_slice st = Some st' ->
  consistent v k st'.
Proof.
  intros I. destruct (head_of_bounds st I) as (Hh & Hd & _).
  destruct below_sizes as (HH & EC & HCR & HRT & HTW & _).
  destruct I as [Ht Hs Hn Hc Hcy Hrd Hw].
  destruct st as [[t n nc hs] l w]. fields.
  unfold call. fields.
  pose proof (writer_slice_spec v k (mkBroadcast t n nc hs)) as Hspec.
  pose proof (writer_slice_word v (mkBroadcast t n nc hs) k) as Hword.
  destruct (brdct_writer_slice v (mkBroadcast t n nc hs) k) as [b' s].
  cbv zeta in Hspec. fields. cbn [fst snd] in *.
  destruct Hspec as (_ & _ & (_ & H0 & _ & _ & H1 & Hsum & _) & _ & Elen);
    try lia.
  intros [= <-].
  pose proof (crossed_range (t - t mod 2 ^ (k - 1)) l) as Hcr.
  destruct ((n =? 0) || (nc <? n)) eqn:Etest; subst b'; fields.
  - constructor; fields; try assumption.
    intros s' [= <-]. unfold sums. lia.
  - apply orb_false_iff in Etest as [N0 Nlt].
    apply Z.eqb_neq in N0. apply Z.ltb_ge in Nlt.
    assert (Hall : hs = 1 /\
                   crossed (t - t mod 2 ^ (k - 1)) l = Z.of_nat (length l)).
    { destruct Hs as [-> | [-> _]]; lia. }
    destruct Hall as [-> Hall]. apply crossed_all in Hall.
    constructor; fields; try assumption; try lia.
    + rewrite Forall_forall in *. intros rd Hin.
      destruct (Hrd rd Hin) as [Hpos Hheld]. specialize (Hall rd Hin).
      split; fields; [lia | exact Hheld].
    + intros s' [= <-]. unfold sums. lia.
Qed.

Lemma consistent_writer_commit st st' c0 c1 :
  consistent v k st -> call v k (writer_commit c0 c1) st = Some st' ->
  tail (word st') < 2 ^ reader_bits v ->
  consistent v k st'.
Proof.
  intros I. destruct (head_of_bounds st I) as (Hh & Hd & _).
  destruct below_sizes as (HH & EC & HCR & HRT & HTW & _).
  destruct I as [Ht Hs Hn Hc Hcy Hrd Hw].
  destruct st as [[t n nc hs] l w]. fields.
  unfold call. fields.
  destruct w as [s |]; [| discriminate].
  destruct (lowered s c0 c1) eqn:Elow; [| discriminate].
  apply lowered_spec in Elow as [Hc0 Hc1].
  destruct (Hw s eq_refl) as [Hsum Hlen]. clear Hw.
  pose proof Hsum as (Hs0 & Hs1 & Hs2).
  destruct (commit_count (word_bits v) s c0 c1 Hsum ltac:(lia) Hc0 Hc1)
    as [Ecnt Rcnt].
  unfold brdct_writer_commit. cbv zeta. fields.
  cbn [idx0 idx1 cnt0 cnt1 len]. rewrite Ecnt.
  set (cnt := len s - (c0 + c1)) in *.
  unfold addw. rewrite (wrap_small (word_bits v)) by lia.
  rewrite (wrap_small (tail_bits v)) by lia.
  rewrite !Z.shiftr_div_pow2 by lia.
  pose proof (Z.div_mod t (2 ^ (k - 1)) ltac:(lia)) as Et.
  pose proof (Z.mod_pos_bound t (2 ^ (k - 1)) HH) as Rt.
  pose proof (Z.div_pos t (2 ^ (k - 1)) ltac:(lia) HH) as Rq.
  set (S := t - t mod 2 ^ (k - 1)) in *.
  assert (ES : S = 2 ^ (k - 1) * (t / 2 ^ (k - 1))) by (unfold S; lia).
  destruct (Z.eqb_spec ((t + cnt) / 2 ^ (k - 1)) (t / 2 ^ (k - 1)))
    as [E | N]; cbn [negb]; intros [= <-]; fields; intros Hbelow.
  - (* the commit stays in the half-block *)
    assert (ES' : t + cnt - (t + cnt) mod 2 ^ (k - 1) = S).
    { pose proof (Z.div_mod (t + cnt) (2 ^ (k - 1)) ltac:(lia)) as Et'.
      rewrite E in Et'. lia. }
    constructor; fields; rewrite ?ES'; try assumption; try lia.
    + rewrite Forall_forall in *. intros rd Hin.
      destruct (Hrd rd Hin) as [Hpos Hheld].
      split; fields; rewrite ?ES'; [lia |].
      intros s' Es'. destruct (Hheld s' Es'). split; [assumption | lia].
    + discriminate.
  - (* the commit crosses into the next half-block *)
    assert (Hcross : hs = 0 /\ S + 2 ^ (k - 1) <= t + cnt).
    { destruct (Z_lt_ge_dec (t + cnt) (S + 2 ^ (k - 1))) as [Hlt | Hge].
      - exfalso. apply N.
        apply (same_half_block _ (t / 2 ^ (k - 1))); lia.
      - destruct Hs as [-> | [-> _]]; lia. }
    destruct Hcross as [-> Hge].
    assert (ES' : t + cnt - (t + cnt) mod 2 ^ (k - 1) = S + 2 ^ (k - 1)).
    { assert (Eq : (t + cnt) / 2 ^ (k - 1) = t / 2 ^ (k - 1) + 1).
      { symmetry.
        apply Z.div_unique_pos with (t + cnt - (S + 2 ^ (k - 1))); lia. }
      pose proof (Z.div_mod (t + cnt) (2 ^ (k - 1)) ltac:(lia)) as Et'.
      rewrite Eq in Et'. lia. }
    constructor; fields; rewrite ?ES'; try assumption; try lia.
    + rewrite (crossed_none (S + 2 ^ (k - 1)) l); [now rewrite Hcy |].
      rewrite Forall_forall in *. intros rd Hin.
      destruct (Hrd rd Hin) as [Hpos _]. fields. lia.
    + rewrite Forall_forall in *. intros rd Hin.
      destruct (Hrd rd Hin) as [Hpos Hheld].
      split; fields; rewrite ?ES'; [lia |].
      intros s' Es'. destruct (Hheld s' Es'). split; [assumption | lia].
    + discriminate.
Qed.

(** Every state of a run that stays below the wrap of the reader counters
    is consistent. *)
Lemma reachable_below_consistent st :
  reachable_below v k st -> consistent v k st.
Proof.
  induction 1 as [| st c st' _ IH Hcall Hbelow].
  - apply consistent_start.
  - destruct c.
    + eapply consistent_attach; eassumption.
    + eapply consistent_detach; eassumption.
    + eapply consistent_reader_slice; eassumption.
    + eapply consistent_reader_commit; eassumption.
    + eapply consistent_writer_slice; eassumption.
    + eapply consistent_writer_commit; eassumption.
Qed.

(** What the invariant gives: no reader is a full capacity behind, in the
    arithmetic of any width from [Reader] up, and the census holds. *)
Lemma consistent_safe st m :
  consistent v k st -> reader_bits v <= m ->
  no_overwrite m k st /\ census (word st).
Proof.
  intros I Hm. destruct (head_of_bounds st I) as (Hh & Hd & _).
  destruct below_sizes as (HH & EC & HCR & HRT & HTW & _).
  destruct I as [Ht Hs Hn Hc Hcy Hrd Hw].
  assert (2 ^ reader_bits v <= 2 ^ m) by (apply Z.pow_le_mono_r; lia).
  split.
  - intros rd Hin. rewrite Forall_forall in Hrd.
    destruct (Hrd rd Hin) as [Hpos _].
    unfold subw. rewrite wrap_small; lia.
  - pose proof (crossed_range (half_start k (word st)) (readers st)).
    split.
    + destruct Hs as [E | [E _]]; rewrite E in Hcy; lia.
    + intros E. rewrite E in Hcy. lia.
Qed.

End Below.

Lemma run_below_reachable v k cs st st' :
  reachable_below v k st -> run_below v k cs st = Some st' ->
  reachable_below v k st'.
Proof.
  revert st. induction cs as [| c cs IH]; simpl; intros st Hst E.
  - injection E as <-. exact Hst.
  - destruct (call v k c st) as [st1 |] eqn:Ec; [| discriminate].
    destruct (Z.ltb_spec (tail (word st1)) (2 ^ reader_bits v)) as [Hlt | Hge];
      [| discriminate].
    apply (IH st1); [| exact E].
    eapply below_call; eassumption.
Qed.

(** The invariant in the 64-bit layout. *)
Lemma consistent_below_wide k st :
  1 <= k < 32 -> reachable_below wide k st -> consistent wide k st.
Proof.
  intros Hk Hreach.
  assert (HR : reader_bits wide < tail_bits wide) by reflexivity.
  assert (HT : tail_bits wide <= word_bits wide) by discriminate.
  assert (Hceil : Z.shiftr (Z.shiftl 1 15 - 1) (BRDCT_RESIZE wide)
                  = 2 ^ count_bits wide - 1) by reflexivity.
  exact (reachable_below_consistent wide k Hk HR HT Hceil st Hreach).
Qed.

(** X16 (safe before the reader counters wrap).  In the 64-bit layout,
    with a capacity of at most [2^31]: as long as [tail] has not reached
    [2^32], no reader is a full capacity behind [tail] and the census
    holds. *)
Theorem safe_below_reader_wrap (k : Z) (st : System) :
  1 <= k < 32 -> reachable_below wide k st ->
  consistent wide k st /\
  no_overwrite 32 k st /\ no_overwrite 64 k st /\ census (word st).
Proof.
  intros Hk Hreach.
  assert (HR : reader_bits wide < tail_bits wide) by reflexivity.
  assert (HT : tail_bits wide <= word_bits wide) by discriminate.
  assert (Hceil : Z.shiftr (Z.shiftl 1 15 - 1) (BRDCT_RESIZE wide)
                  = 2 ^ count_bits wide - 1) by reflexivity.
  assert (Hk' : 1 <= k < reader_bits wide) by (simpl; lia).
  pose proof (reachable_below_consistent wide k Hk' HR HT Hceil st Hreach)
    as I.
  destruct (consistent_safe wide k Hk' HR HT Hceil st 32 I)
    as [Hno32 Hcensus]; [simpl; lia |].
  destruct (consistent_safe wide k Hk' HR HT Hceil st 64 I)
    as [Hno64 _]; [simpl; lia |].
  split; [exact I |]. split; [exact Hno32 |].
  split; [exact Hno64 | exact Hcensus].
Qed.

(** The first three rounds of [past_reader_wrap] are in that regime: they
    end with [tail] and the reader at [2^32 - 1]. *)
Lemma safe_below_reader_wrap_example :
  exists st,
    run wide 31 (attach_reader :: rounds 3) start = Some st /\
    word st = mkBroadcast (2 ^ 32 - 1) 1 1 1 /\
    readers st = [mkReader (2 ^ 32 - 1) None] /\
    consistent wide 31 st.
Proof.
  eexists. split; [now vm_compute |].
  split; [reflexivity | split; [reflexivity |]].
  apply consistent_below_wide; [lia |].
  apply (run_below_reachable wide 31 (attach_reader :: rounds 3) start).
  - apply below_start.
  - now vm_compute.
Qed.

(** The word with one reader on each side of the half-block boundary is
    reached on a queue of eight cells by two readers attaching, the writer
    producing five cells and the first reader consuming four. *)
Lemma two_readers_word_reached :
  run wide 3
    [attach_reader; attach_reader; writer_slice; writer_commit 2 0;
     reader_slice 0%nat; reader_commit 0%nat 1 0] start
  = Some (mkSystem (mkBroadcast 5 2 1 1)
            [mkReader 4 None; mkReader 0 None] None).
Proof. reflexivity. Qed.

(** X17 (the writer stays behind the boundary).  With [hstate == 1]
    after [brdct_writer_slice], committing the whole slice leaves [tail] in
    its half-block, [hstate] at 1 and [tail] advanced by [len]. *)
Lemma writer_commit_all_stays_in_half (v : Variant) (b : Broadcast) (k : Z) :
  1 <= k <= tail_bits v -> tail_bits v < word_bits v ->
  0 <= tail b < 2 ^ tail_bits v -> 0 <= hstate b <= 1 ->
  hstate (fst (brdct_writer_slice v b k)) = 1 ->
  let new := fst (brdct_writer_slice v b k) in
  let s := snd (brdct_writer_slice v b k) in
  let b' := brdct_writer_commit v new k (take_all s) in
  tail b' = tail new + len s /\ hstate b' = 1 /\
  Z.shiftr (tail b') (k - 1) = Z.shiftr (tail new) (k - 1).
Proof.
  intros Hk HT Ht Hs Hs1. cbv zeta.
  assert (HTW : 2 * 2 ^ tail_bits v <= 2 ^ word_bits v)
    by (apply pow2_double; lia).
  pose proof (pow2_pos (tail_bits v) ltac:(lia)) as HTB.
  destruct (writer_slice_spec v k b ltac:(lia) ltac:(lia) Hs)
    as (Etl & _ & (_ & H0 & _ & _ & H1 & Hsum & _) & _ & Elen).
  destruct (brdct_writer_slice v b k) as [new s]. cbn [fst snd] in *.
  rewrite Hs1, Z.mul_1_r in Elen.
  pose proof (pow2_pos (k - 1) ltac:(lia)) as HH.
  pose proof (pow2_half k ltac:(lia)) as EC.
  pose proof (Z.div_mod (tail b) (2 ^ (k - 1)) ltac:(lia)) as Et.
  pose proof (Z.mod_pos_bound (tail b) (2 ^ (k - 1)) HH) as Rt.
  assert (ETB : 2 ^ tail_bits v = 2 ^ (k - 1) * 2 ^ (tail_bits v - (k - 1)))
    by (apply pow2_split; lia).
  assert (Hq : tail b / 2 ^ (k - 1) < 2 ^ (tail_bits v - (k - 1)))
    by (apply Z.div_lt_upper_bound; lia).
  assert (Hfit : tail b + len s < 2 ^ tail_bits v) by nia.
  unfold brdct_writer_commit, take_all. cbv zeta.
  cbn [idx0 idx1 cnt0 cnt1 len tail hstate nreaders ncycled].
  assert (Ecnt : subw (word_bits v) (len s) (addw (word_bits v) 0 0) = len s).
  { unfold subw, addw. rewrite (wrap_small _ (0 + 0)) by lia.
    rewrite Z.sub_0_r. apply wrap_small. lia. }
  rewrite Ecnt, Etl. unfold addw.
  rewrite (wrap_small (word_bits v)) by lia.
  rewrite (wrap_small (tail_bits v)) by lia.
  rewrite !Z.shiftr_div_pow2 by lia.
  assert (E : (tail b + len s) / 2 ^ (k - 1) = tail b / 2 ^ (k - 1)).
  { apply (same_half_block _ (tail b / 2 ^ (k - 1))); lia. }
  rewrite E, Z.eqb_refl. cbn [negb tail hstate]. auto.
Qed.

(** ** How the calls compose *)

(** Closed comparisons of integers. *)
Ltac ground := repeat split; vm_compute; congruence.

Lemma pow2_le a b : 0 <= a <= b -> 2 ^ a <= 2 ^ b.
Proof. intros; apply Z.pow_le_mono_r; lia. Qed.

(** X6 (committing an untouched slice changes nothing).  A slice returned
    by [brdct_reader_slice] and passed as it is to [brdct_reader_commit]
    leaves the state word and the reader counter unchanged; a slice
    returned by [brdct_writer_slice] and passed as it is to
    [brdct_writer_commit] leaves the state word unchanged. *)
Theorem commit_of_untouched_slice (v : Variant) (b : Broadcast) (k r : Z) :
  1 <= k < word_bits v ->
  0 <= reader_bits v <= word_bits v -> 0 <= tail_bits v <= word_bits v ->
  0 <= r < 2 ^ reader_bits v ->
  0 <= tail b < 2 ^ tail_bits v -> 0 <= hstate b <= 1 ->
  brdct_reader_commit v b k r (brdct_reader_slice v b k r) = (b, r) /\
  brdct_writer_commit v (fst (brdct_writer_slice v b k)) k
    (snd (brdct_writer_slice v b k))
  = fst (brdct_writer_slice v b k).
Proof.
  intros Hk HR HT Hr Ht Hs.
  pose proof (pow2_le _ _ HR) as HRW. pose proof (pow2_le _ _ HT) as HTW.
  split.
  - unfold brdct_reader_commit. cbv zeta.
    set (s := brdct_reader_slice v b k r).
    assert (El : len s = addw (word_bits v) (cnt0 s) (cnt1 s)) by reflexivity.
    rewrite El. unfold subw. rewrite Z.sub_diag.
    unfold addw.
    rewrite (wrap_small _ 0) by (pose proof (pow2_pos (word_bits v)); lia).
    rewrite Z.add_0_r, (wrap_small (word_bits v)) by lia.
    rewrite wrap_small by lia. now rewrite Z.eqb_refl.
  - destruct (writer_slice_spec v k b Hk ltac:(lia) Hs)
      as (Etl & _ & (_ & H0 & _ & _ & H1 & Hsum & Hlen) & _ & _).
    destruct (brdct_writer_slice v b k) as [new s]. cbn [fst snd] in *.
    unfold brdct_writer_commit. cbv zeta.
    pose proof (pow2_pos k ltac:(lia)).
    pose proof (pow2_double (word_bits v) k ltac:(lia)).
    unfold subw, addw. rewrite <- Hsum.
    rewrite (wrap_small _ (len s)) by lia. rewrite Z.sub_diag.
    rewrite (wrap_small _ 0) by lia.
    rewrite Z.add_0_r, (wrap_small (word_bits v)) by lia.
    rewrite wrap_small by lia. cbn [tail]. rewrite Z.eqb_refl.
    destruct new; reflexivity.
Qed.

Lemma commit_of_untouched_slice_witness :
  brdct_reader_commit wide (mkBroadcast 13 1 0 1) 3 9
    (brdct_reader_slice wide (mkBroadcast 13 1 0 1) 3 9)
  = (mkBroadcast 13 1 0 1, 9).
Proof.
  destruct (commit_of_untouched_slice wide (mkBroadcast 13 1 0 1) 3 9)
    as [E _]; [ground | ground | ground | ground | ground | ground |].
  exact E.
Defined.

(** The slice of [brdct_writer_slice] is computed from the word it leaves. *)
Lemma writer_slice_from_word (v : Variant) (b b' : Broadcast) (k : Z) :
  fst (brdct_writer_slice v b k) = fst (brdct_writer_slice v b' k) ->
  brdct_writer_slice v b k = brdct_writer_slice v b' k.
Proof.
  unfold brdct_writer_slice. cbv zeta. cbn [fst]. intros E. now rewrite E.
Qed.

(** X7 ([brdct_writer_slice] twice).  Calling [brdct_writer_slice] again
    on the word it left returns the same word and the same slice. *)
Theorem writer_slice_twice (v : Variant) (b : Broadcast) (k : Z) :
  brdct_writer_slice v (fst (brdct_writer_slice v b k)) k
  = brdct_writer_slice v b k.
Proof.
  apply writer_slice_from_word.
  rewrite !writer_slice_word.
  destruct ((nreaders b =? 0) || (ncycled b <? nreaders b)) eqn:Et.
  - now rewrite Et.
  - cbn [nreaders ncycled tail].
    destruct ((nreaders b =? 0) || (0 <? nreaders b)); reflexivity.
Qed.

(** X8 (when the writer is refused).  [brdct_writer_slice] returns
    [len == 0] exactly when the word it leaves has [hstate == 1] and [tail]
    is on the last cell of its half-block; when it leaves [hstate == 0] it
    returns at least half the capacity. *)
Theorem writer_slice_empty_iff (v : Variant) (b : Broadcast) (k : Z) :
  1 <= k < word_bits v ->
  0 <= tail b < 2 ^ word_bits v -> 0 <= hstate b <= 1 ->
  let new := fst (brdct_writer_slice v b k) in
  let s := snd (brdct_writer_slice v b k) in
  (len s = 0 <->
     hstate new = 1 /\ tail b mod 2 ^ (k - 1) = 2 ^ (k - 1) - 1) /\
  (hstate new = 0 -> 2 ^ (k - 1) <= len s).
Proof.
  intros Hk Ht Hs. cbv zeta.
  destruct (writer_slice_spec v k b Hk Ht Hs) as (_ & Hsn & _ & _ & Elen).
  pose proof (pow2_pos (k - 1) ltac:(lia)) as HH.
  pose proof (pow2_half k ltac:(lia)) as EC.
  pose proof (Z.mod_pos_bound (tail b) _ HH) as Rm.
  rewrite Elen.
  assert (Hcase : hstate (fst (brdct_writer_slice v b k)) = 0 \/
                  hstate (fst (brdct_writer_slice v b k)) = 1) by lia.
  destruct Hcase as [E | E]; rewrite E; lia.
Qed.

Lemma writer_slice_empty_iff_witness :
  len (snd (brdct_writer_slice wide (mkBroadcast 7 1 0 1) 3)) = 0.
Proof.
  destruct (writer_slice_empty_iff wide (mkBroadcast 7 1 0 1) 3)
    as [[_ E] _]; [ground | ground | ground |].
  apply E. ground.
Defined.

(** X9 (when a reader has nothing to read).  For a reader less than a
    capacity behind [tail], [brdct_reader_slice] returns [len == 0] exactly
    when the reader counter equals [tail]. *)
Theorem reader_slice_empty_iff (v : Variant) (b : Broadcast) (k r : Z) :
  0 <= k < word_bits v ->
  0 <= tail b < 2 ^ word_bits v -> 0 <= r < 2 ^ word_bits v ->
  subw (word_bits v) (tail b) r <= 2 ^ k - 1 ->
  (len (brdct_reader_slice v b k r) = 0 <-> r = tail b).
Proof.
  intros Hk Ht Hr Hd.
  destruct (reader_slice_spec v k r b Hk Ht Hr Hd) as (_ & _ & ->).
  unfold subw. split.
  - intros E0. destruct (Z_le_gt_dec r (tail b)).
    + rewrite wrap_small in E0 by lia. lia.
    + rewrite (wrap_unique _ _ (-1) (2 ^ word_bits v + tail b - r)) in E0;
        lia.
  - intros ->. rewrite Z.sub_diag. apply wrap_small; lia.
Qed.

Lemma reader_slice_empty_iff_witness :
  len (brdct_reader_slice wide (mkBroadcast 13 1 0 1) 3 13) = 0 <-> 13 = 13.
Proof.
  apply (reader_slice_empty_iff wide (mkBroadcast 13 1 0 1) 3 13); ground.
Defined.

Section Attach.

Variable v : Variant.
Variables k r0 : Z.
Variable b : Broadcast.
Hypothesis Hk : 1 <= k < reader_bits v.
Hypothesis HR : reader_bits v < word_bits v.
Hypothesis Ht : 0 <= tail b < 2 ^ reader_bits v.
Hypothesis Hs :
  hstate b = 0 \/ (hstate b = 1 /\ 2 ^ (k - 1) <= tail b).
Hypothesis Hok : fst (fst (brdct_attach_reader v b k r0)) = 0.

Lemma attach_reader_position :
  brdct_attach_reader v b k r0
  = (0, mkBroadcast (tail b) (wrap (count_bits v) (nreaders b + 1))
          (ncycled b) (hstate b),
     tail b - tail b mod 2 ^ (k - 1) - 2 ^ (k - 1) * hstate b) /\
  0 <= tail b - tail b mod 2 ^ (k - 1) - 2 ^ (k - 1) * hstate b <= tail b.
Proof.
  destruct (attach_reader_cases v b k r0) as [[_ E] | [_ E]];
    rewrite E in Hok |- *; [discriminate |].
  pose proof (pow2_pos (k - 1) ltac:(lia)) as HH.
  pose proof (pow2_double (word_bits v) (reader_bits v) ltac:(lia)) as HRW.
  pose proof (Z.mod_pos_bound (tail b) _ HH) as Rm.
  pose proof (Z.div_mod (tail b) (2 ^ (k - 1)) ltac:(lia)) as Et.
  pose proof (Z.mod_le (tail b) (2 ^ (k - 1)) ltac:(lia) HH) as Rle.
  assert (Hq : hstate b = 1 ->
               2 ^ (k - 1) <= tail b - tail b mod 2 ^ (k - 1)).
  { intros E1. destruct Hs as [E0 | [_ Hge]]; [lia |].
    assert (1 <= tail b / 2 ^ (k - 1))
      by (apply Z.div_le_lower_bound; lia).
    nia. }
  assert (Rng : 0 <= tail b - tail b mod 2 ^ (k - 1) - 2 ^ (k - 1) * hstate b
                <= tail b).
  { destruct Hs as [E0 | [E1 _]]; [rewrite E0; lia |].
    specialize (Hq E1). rewrite E1. lia. }
  split; [| exact Rng].
  rewrite derived_head_val by lia.
  rewrite (wrap_small (word_bits v)) by lia.
  rewrite (wrap_small (reader_bits v)) by lia. reflexivity.
Qed.

End Attach.

(** X10 (attach then detach).  While [tail] is below the range of
    [Reader] and [nreaders] is below its ceiling, a successful
    [brdct_attach_reader] followed at once by [brdct_detach_reader] of the
    new reader gives back the state word. *)
Theorem attach_then_detach (v : Variant) (b : Broadcast) (k r0 : Z) :
  1 <= k < reader_bits v -> reader_bits v < word_bits v ->
  0 <= tail b < 2 ^ reader_bits v ->
  hstate b = 0 \/ (hstate b = 1 /\ 2 ^ (k - 1) <= tail b) ->
  0 <= nreaders b -> nreaders b + 1 < 2 ^ count_bits v ->
  fst (fst (brdct_attach_reader v b k r0)) = 0 ->
  brdct_detach_reader v (snd (fst (brdct_attach_reader v b k r0))) k
    (snd (brdct_attach_reader v b k r0)) = b.
Proof.
  intros Hk HR Ht Hs Hn0 Hn1 Hok.
  destruct (attach_reader_position v k r0 b Hk HR Ht Hs Hok) as [-> Rng].
  cbn [fst snd]. unfold brdct_detach_reader. cbv zeta.
  cbn [tail nreaders ncycled hstate].
  rewrite (wrap_small _ (nreaders b + 1)) by lia.
  replace (nreaders b + 1 - 1) with (nreaders b) by lia.
  rewrite (wrap_small _ (nreaders b)) by lia.
  rewrite !Z.shiftr_div_pow2 by lia.
  pose proof (pow2_pos (k - 1) ltac:(lia)) as HH.
  pose proof (Z.div_mod (tail b) (2 ^ (k - 1)) ltac:(lia)) as Et.
  pose proof (Z.mod_pos_bound (tail b) _ HH) as Rm.
  destruct Hs as [E0 | [E1 _]].
  - rewrite E0. cbn [Z.eqb negb andb]. rewrite <- E0. destruct b; reflexivity.
  - rewrite E1 in *. cbn [Z.eqb negb andb].
    replace (tail b / 2 ^ (k - 1)
             =? (tail b - tail b mod 2 ^ (k - 1) - 2 ^ (k - 1) * 1)
                / 2 ^ (k - 1)) with false.
    + rewrite <- E1. destruct b; reflexivity.
    + symmetry. apply Z.eqb_neq. apply not_eq_sym.
      apply (other_half_block _ (tail b / 2 ^ (k - 1))); lia.
Qed.

Lemma attach_then_detach_witness :
  brdct_detach_reader wide
    (snd (fst (brdct_attach_reader wide (mkBroadcast 13 1 1 1) 3 0))) 3
    (snd (brdct_attach_reader wide (mkBroadcast 13 1 1 1) 3 0))
  = mkBroadcast 13 1 1 1.
Proof.
  apply (attach_then_detach wide (mkBroadcast 13 1 1 1) 3 0);
    try ground.
  right. ground.
Defined.

(** X11 (the first slice of a new reader).  For a capacity exponent [k]
    below the width of [Reader], [tail] below [2^reader_bits] and a state
    word with [hstate == 0], or with [hstate == 1] and [tail >= 2^(k-1)]
    (the derived head is then not below 0): a successful
    [brdct_attach_reader] puts the reader at the start of the half-block of
    [tail], or of the one before when [hstate == 1]; its first slice holds
    everything from there to [tail] and is in bounds. *)
Theorem attach_reader_first_slice (v : Variant) (b : Broadcast) (k r0 : Z) :
  1 <= k < reader_bits v -> reader_bits v < word_bits v ->
  0 <= tail b < 2 ^ reader_bits v ->
  hstate b = 0 \/ (hstate b = 1 /\ 2 ^ (k - 1) <= tail b) ->
  fst (fst (brdct_attach_reader v b k r0)) = 0 ->
  let b' := snd (fst (brdct_attach_reader v b k r0)) in
  let r := snd (brdct_attach_reader v b k r0) in
  r = tail b - tail b mod 2 ^ (k - 1) - 2 ^ (k - 1) * hstate b /\
  len (brdct_reader_slice v b' k r) = tail b - r /\
  idx0 (brdct_reader_slice v b' k r) = r mod 2 ^ k /\
  in_bounds k (brdct_reader_slice v b' k r).
Proof.
  intros Hk HR Ht Hs Hok. cbv zeta.
  destruct (attach_reader_position v k r0 b Hk HR Ht Hs Hok) as [-> Rng].
  cbn [fst snd]. split; [reflexivity |].
  set (r := tail b - tail b mod 2 ^ (k - 1) - 2 ^ (k - 1) * hstate b) in *.
  pose proof (pow2_pos (k - 1) ltac:(lia)) as HH.
  pose proof (pow2_half k ltac:(lia)) as EC.
  pose proof (pow2_double (word_bits v) (reader_bits v) ltac:(lia)) as HRW.
  pose proof (Z.mod_pos_bound (tail b) _ HH) as Rm.
  assert (Ed : subw (word_bits v) (tail b) r = tail b - r)
    by (apply wrap_small; lia).
  assert (Hd : subw (word_bits v) (tail b) r <= 2 ^ k - 1).
  { rewrite Ed. unfold r.
    destruct Hs as [E0 | [E1 _]]; [rewrite E0 | rewrite E1]; lia. }
  destruct (reader_slice_spec v k r
              (mkBroadcast (tail b) (wrap (count_bits v) (nreaders b + 1))
                 (ncycled b) (hstate b))
              ltac:(lia) ltac:(cbn [tail]; lia) ltac:(lia) Hd)
    as (Hb & Ei & El).
  cbn [tail] in El. rewrite Ed in El. auto.
Qed.

Lemma attach_reader_first_slice_witness :
  len (brdct_reader_slice wide
         (snd (fst (brdct_attach_reader wide (mkBroadcast 4 0 0 1) 3 0))) 3
         (snd (brdct_attach_reader wide (mkBroadcast 4 0 0 1) 3 0)))
  = 4 - snd (brdct_attach_reader wide (mkBroadcast 4 0 0 1) 3 0).
Proof.
  destruct (attach_reader_first_slice wide (mkBroadcast 4 0 0 1) 3 0)
    as (_ & E & _); [ground | ground | ground | right; ground | ground |].
  exact E.
Defined.



(** A stretch of [n] cells from counter [p] on, cut at the end of the
    array. *)
Lemma ring_interval C p n i :
  0 < C -> 0 <= n <= C ->
  (p mod C <= i < p mod C + Z.min n (C - p mod C) \/
   0 <= i < n - Z.min n (C - p mod C))
  <-> (0 <= i < C /\ (i - p) mod C < n).
Proof.
  intros HC Hn. pose proof (Z.mod_pos_bound p C HC) as Rp.
  rewrite <- (Zminus_mod_idemp_r i p C).
  set (pr := p mod C) in *.
  destruct (Z_le_gt_dec pr i) as [Hge | Hlt].
  - destruct (Z_lt_ge_dec i C) as [HiC | HiC].
    + rewrite (Z.mod_small (i - pr)) by lia. lia.
    + split; [lia | intros [? _]; lia].
  - destruct (Z_le_gt_dec 0 i) as [Hi0 | Hi0]; [| lia].
    rewrite <- (Z.mod_unique_pos (i - pr) C (-1) (i - pr + C)) by lia. lia.
Qed.

(** Two stretches one after the other, less than the array in all, share
    no cell. *)
Lemma ring_intervals_disjoint C r n1 n2 i :
  0 < C -> 0 <= n1 -> 0 <= n2 -> n1 + n2 <= C ->
  ~ ((i - r) mod C < n1 /\ (i - (r + n1)) mod C < n2).
Proof.
  intros HC H1 H2 Hs [Ha Hb].
  pose proof (Z.mod_pos_bound (i - r) C HC) as Ra.
  pose proof (Z.mod_pos_bound (i - (r + n1)) C HC) as Rb.
  assert (E : (i - r) mod C = ((i - (r + n1)) mod C + n1) mod C).
  { rewrite Zplus_mod_idemp_l. f_equal. lia. }
  rewrite (Z.mod_small (_ + n1)) in E by lia. lia.
Qed.

Section Segments.

Variable v : Variant.
Variable k : Z.
Variable b : Broadcast.

Lemma reader_slice_segments r :
  0 <= k < word_bits v ->
  0 <= tail b < 2 ^ word_bits v -> 0 <= r < 2 ^ word_bits v ->
  subw (word_bits v) (tail b) r <= 2 ^ k - 1 ->
  let s := brdct_reader_slice v b k r in
  let n := subw (word_bits v) (tail b) r in
  idx0 s = r mod 2 ^ k /\ idx1 s = 0 /\
  cnt0 s = Z.min n (2 ^ k - r mod 2 ^ k) /\ cnt1 s = n - cnt0 s /\
  len s = n.
Proof.
  intros Hk Ht Hr Hd. unfold brdct_reader_slice. cbv zeta.
  rewrite mask_val by lia.
  rewrite !land_mask, !Z.shiftr_div_pow2 by lia.
  pose proof (pow2_pos k ltac:(lia)) as HC.
  pose proof (pow2_double (word_bits v) k ltac:(lia)) as HW.
  pose proof (Z.mod_pos_bound (tail b) _ HC) as Rt.
  pose proof (Z.mod_pos_bound r _ HC) as Rr.
  unfold subw, addw in *.
  pose proof (blocks_cases (word_bits v) k r (tail b) Hk Hr Ht ltac:(lia))
    as Hb.
  set (W := word_bits v) in *. set (C := 2 ^ k) in *.
  destruct Hb as [(Eq & Hle & Ed & _) | (Nq & Hle & Ed & _)].
  - rewrite Eq, Z.eqb_refl. cbn [negb idx0 idx1 cnt0 cnt1 len].
    rewrite Ed. unwrap W. repeat split; lia.
  - apply not_eq_sym, Z.eqb_neq in Nq. rewrite Nq.
    cbn [negb idx0 idx1 cnt0 cnt1 len].
    rewrite Ed in *. unwrap W. repeat split; lia.
Qed.

Lemma writer_slice_segments :
  1 <= k < word_bits v ->
  0 <= tail b < 2 ^ word_bits v -> 0 <= hstate b <= 1 ->
  let new := fst (brdct_writer_slice v b k) in
  let s := snd (brdct_writer_slice v b k) in
  let n := 2 ^ k - 1 - (tail b mod 2 ^ (k - 1) + 2 ^ (k - 1) * hstate new) in
  idx0 s = tail b mod 2 ^ k /\ idx1 s = 0 /\
  cnt0 s = Z.min n (2 ^ k - tail b mod 2 ^ k) /\ cnt1 s = n - cnt0 s /\
  len s = n /\ 0 <= n.
Proof.
  intros Hk Ht Hs.
  unfold brdct_writer_slice. cbv zeta. simpl fst. simpl snd.
  set (new := if (nreaders b =? 0) || (ncycled b <? nreaders b) then b
    else mkBroadcast (tail b) (nreaders b) 0 0).
  assert (Hnew : tail new = tail b /\ 0 <= hstate new <= 1).
  { unfold new. destruct (_ || _); simpl; lia. }
  destruct Hnew as [Etl Hsn]. clearbody new.
  fold (derived_head v new k).
  assert (Htn : 0 <= tail new < 2 ^ word_bits v) by (rewrite Etl; exact Ht).
  pose proof (derived_head_distance v k new Hk Htn Hsn) as [Ed _].
  pose proof (derived_head_range v k new Hk Htn) as Rhd.
  pose proof (derived_head_cases v k new Hk Htn Hsn) as Hc. cbv zeta in Hc.
  set (hd := derived_head v new k) in *. clearbody hd.
  rewrite mask_val, cap_val by lia.
  rewrite !land_mask, !Z.shiftr_div_pow2 by lia.
  rewrite wrap_add_sub, Ed. rewrite Etl in *.
  unfold addw, subw. replace (2 ^ k - 1 + 1) with (2 ^ k) by lia.
  pose proof (pow2_pos (k - 1) ltac:(lia)) as HH.
  pose proof (pow2_half k ltac:(lia)) as E2.
  pose proof (pow2_double (word_bits v) k ltac:(lia)) as HW.
  pose proof (Z.mod_pos_bound (tail b) _ HH) as Rm.
  pose proof (Z.mod_pos_bound (tail b) (2 ^ k) ltac:(lia)) as Rc.
  unfold subw in *.
  set (W := word_bits v) in *. set (H := 2 ^ (k - 1)) in *.
  set (C := 2 ^ k) in *.
  destruct Hc
    as [(E0 & Eq & Em & Hhalf) | [(E1 & Ehi & Eq & Em) | (E1 & Elo & Nq)]].
  - rewrite Eq, Z.eqb_refl. cbn [idx0 idx1 cnt0 cnt1 len].
    rewrite E0, Em, Z.mul_0_r, Z.add_0_r.
    destruct Hhalf as [Elo | Ehi]; rewrite ?Elo, ?Ehi in *;
      unwrap W; decide_tests; cbn [idx0 idx1 cnt0 cnt1 len]; unwrap W;
      repeat split; lia.
  - rewrite Eq, Z.eqb_refl. cbn [idx0 idx1 cnt0 cnt1 len].
    rewrite E1, Em, Ehi, Z.mul_1_r.
    unwrap W; decide_tests; cbn [idx0 idx1 cnt0 cnt1 len]; unwrap W;
      repeat split; lia.
  - apply not_eq_sym, Z.eqb_neq in Nq. rewrite Nq.
    cbn [idx0 idx1 cnt0 cnt1 len].
    rewrite E1, Elo, Z.mul_1_r.
    unwrap W; decide_tests; cbn [idx0 idx1 cnt0 cnt1 len]; unwrap W;
      repeat split; lia.
Qed.

End Segments.

(** X13 (what the writer commits the readers are given).  For a capacity
    exponent [k] below the width of [Reader], where the shift [*r >> k] is
    defined, and while [tail + C] does not exceed [2^tail_bits]: after the
    writer commits [n] cells of the slice it was given, [tail] is [n]
    further, [nreaders] and [ncycled] are unchanged, and the slice of every
    reader whose counter, a value of [Reader], is between the head and
    [tail] is [n] cells longer and still in bounds. *)
Theorem writer_commit_then_reader_slice (v : Variant) (b : Broadcast)
    (k r c0 c1 : Z) :
  1 <= k < reader_bits v -> reader_bits v <= word_bits v ->
  tail_bits v <= word_bits v ->
  0 <= tail b -> tail b + 2 ^ k <= 2 ^ tail_bits v ->
  0 <= hstate b <= 1 ->
  lowered (snd (brdct_writer_slice v b k)) c0 c1 = true ->
  0 <= r <= tail b -> r < 2 ^ reader_bits v ->
  tail b - tail b mod 2 ^ (k - 1)
    - 2 ^ (k - 1) * hstate (fst (brdct_writer_slice v b k)) <= r ->
  let new := fst (brdct_writer_slice v b k) in
  let s := snd (brdct_writer_slice v b k) in
  let n := len s - (c0 + c1) in
  let b' :=
    brdct_writer_commit v new k (mkSlice (idx0 s) (idx1 s) c0 c1 (len s)) in
  0 <= n <= len s /\ tail b' = tail b + n /\
  nreaders b' = nreaders new /\ ncycled b' = ncycled new /\
  len (brdct_reader_slice v b' k r) = len (brdct_reader_slice v new k r) + n /\
  in_bounds k (brdct_reader_slice v b' k r).
Proof.
  intros Hkr HRW HT Ht0 Ht1 Hs Hlow Hr _ Hhead. cbv zeta.
  assert (Hk : 1 <= k < word_bits v) by lia.
  pose proof (pow2_pos k ltac:(lia)) as HC.
  pose proof (pow2_pos (k - 1) ltac:(lia)) as HH.
  pose proof (pow2_half k ltac:(lia)) as EC.
  pose proof (pow2_double (word_bits v) k ltac:(lia)) as HCW.
  assert (0 <= tail_bits v).
  { destruct (Z_le_gt_dec 0 (tail_bits v)); [assumption |].
    rewrite (Z.pow_neg_r 2 (tail_bits v)) in Ht1 by lia. lia. }
  pose proof (pow2_le (tail_bits v) (word_bits v) ltac:(lia)) as HTW.
  pose proof (Z.mod_pos_bound (tail b) _ HH) as Rm.
  destruct (writer_slice_spec v k b Hk ltac:(lia) Hs)
    as (Etl & Hsn & (_ & H0 & _ & _ & H1 & Hsum & _) & _ & Elen).
  destruct (brdct_writer_slice v b k) as [new s]. cbn [fst snd] in *.
  apply lowered_spec in Hlow as [Hc0 Hc1].
  assert (Hsums : sums s) by (unfold sums; lia).
  destruct (commit_count (word_bits v) s c0 c1 Hsums ltac:(lia) Hc0 Hc1)
    as [Ecnt Rcnt].
  set (n := len s - (c0 + c1)) in *.
  assert (Eb : tail (brdct_writer_commit v new k
                       (mkSlice (idx0 s) (idx1 s) c0 c1 (len s)))
               = tail b + n /\
               nreaders (brdct_writer_commit v new k
                       (mkSlice (idx0 s) (idx1 s) c0 c1 (len s)))
               = nreaders new /\
               ncycled (brdct_writer_commit v new k
                       (mkSlice (idx0 s) (idx1 s) c0 c1 (len s)))
               = ncycled new).
  { unfold brdct_writer_commit. cbv zeta. cbn [idx0 idx1 cnt0 cnt1 len].
    rewrite Ecnt, Etl. unfold addw.
    rewrite (wrap_small (word_bits v)) by lia.
    rewrite (wrap_small (tail_bits v)) by lia.
    destruct (negb _); cbn; auto. }
  destruct Eb as (Etl' & En & Ec).
  set (b' := brdct_writer_commit v new k _) in *.
  assert (Ed : subw (word_bits v) (tail new) r = tail b - r)
    by (rewrite Etl; apply wrap_small; lia).
  assert (Ed' : subw (word_bits v) (tail b') r = tail b + n - r)
    by (rewrite Etl'; apply wrap_small; lia).
  destruct (reader_slice_spec v k r new ltac:(lia) ltac:(lia) ltac:(lia)
              ltac:(rewrite Ed; lia)) as (_ & _ & El).
  destruct (reader_slice_spec v k r b' ltac:(lia) ltac:(lia) ltac:(lia)
              ltac:(rewrite Ed'; lia)) as (Hb & _ & El').
  rewrite Ed in El. rewrite Ed' in El'.
  repeat split; try lia; try assumption; apply Hb.
Qed.

Lemma writer_commit_then_reader_slice_witness :
  len (brdct_reader_slice wide
         (brdct_writer_commit wide (mkBroadcast 5 1 0 1) 3
            (mkSlice 5 0 1 0 2)) 3 2)
  = len (brdct_reader_slice wide (mkBroadcast 5 1 0 1) 3 2) + (2 - (1 + 0)).
Proof.
  destruct (writer_commit_then_reader_slice wide (mkBroadcast 5 1 0 1)
              3 2 1 0)
    as (_ & _ & _ & _ & E & _);
    [ground | ground | ground | ground | ground | ground | reflexivity
    | ground | ground | ground |].
  exact E.
Defined.

Lemma crossed_full s l :
  Forall (fun rd => s <= pos rd) l -> crossed s l = Z.of_nat (length l).
Proof.
  induction 1 as [| rd l Hrd _ IH]; simpl length; simpl crossed;
    [reflexivity |].
  destruct (Z.leb_spec s (pos rd)); lia.
Qed.

Lemma call_writer_slice v k st :
  call v k writer_slice st
  = Some (mkSystem (fst (brdct_writer_slice v (word st) k)) (readers st)
            (Some (snd (brdct_writer_slice v (word st) k)))).
Proof.
  unfold call. now destruct (brdct_writer_slice v (word st) k).
Qed.

Section Consistent.

Variable v : Variant.
Variable k : Z.
Hypothesis Hk : 1 <= k < reader_bits v.
Hypothesis HR : reader_bits v < tail_bits v.
Hypothesis HT : tail_bits v <= word_bits v.
Hypothesis Hceil :
  Z.shiftr (Z.shiftl 1 15 - 1) (BRDCT_RESIZE v) = 2 ^ count_bits v - 1.

Variable st : System.
Hypothesis I : consistent v k st.

Lemma consistent_disjoint rd i :
  In rd (readers st) ->
  ~ (in_slice (brdct_reader_slice v (word st) k (pos rd)) i /\
     in_slice (snd (brdct_writer_slice v (word st) k)) i).
Proof.
  intros Hin.
  destruct (below_sizes v k Hk HR HT Hceil) as (HH & EC & HCR & HRT & HTW & _).
  pose proof (consistent_writer_slice v k Hk HR HT Hceil st _ I
                (call_writer_slice v k st)) as I'.
  destruct (head_of_bounds v k Hk HR HT Hceil st I) as (Hh & Hd & _).
  pose proof (c_tail _ _ _ I) as Ht. pose proof (c_hstate _ _ _ I) as Hs.
  destruct (writer_slice_segments v k (word st) ltac:(lia) ltac:(lia)
              ltac:(lia)) as (Wi0 & Wi1 & Wc0 & Wc1 & Wl & Wn).
  destruct (writer_slice_spec v k (word st) ltac:(lia) ltac:(lia) ltac:(lia))
    as (Etl & _).
  destruct I' as [_ _ _ _ _ Hrd' Hw'].
  cbn [word readers wheld] in Hrd', Hw'.
  destruct (Hw' _ eq_refl) as [_ Hroom].
  rewrite Forall_forall in Hrd'. destruct (Hrd' rd Hin) as [Hpos _].
  pose proof (c_readers _ _ _ I) as Hrd. rewrite Forall_forall in Hrd.
  destruct (Hrd rd Hin) as [Hpos0 _].
  rewrite Etl in Hroom, Hpos.
  unfold head_of, half_start in Hroom, Hpos. rewrite Etl in Hroom, Hpos.
  set (t := tail (word st)) in *.
  assert (Ed : subw (word_bits v) t (pos rd) = t - pos rd)
    by (apply wrap_small; unfold head_of, half_start in *; lia).
  destruct (reader_slice_segments v k (word st) (pos rd) ltac:(lia)
              ltac:(fold t; lia)
              ltac:(unfold head_of, half_start in *; fold t; lia)
              ltac:(fold t; rewrite Ed; unfold head_of, half_start in *; lia))
    as (Ri0 & Ri1 & Rc0 & Rc1 & Rl).
  fold t in Rc0, Rc1, Rl. rewrite Ed in Rc0, Rc1, Rl.
  unfold in_slice. rewrite Ri0, Ri1, Rc1, Rc0, Wi0, Wi1, Wc1, Wc0.
  fold t. rewrite !Z.add_0_l.
  pose proof (pow2_pos k ltac:(lia)) as HC.
  unfold head_of, half_start in *. fold t in Hh, Hd.
  rewrite Wl in Hroom.
  set (nw := 2 ^ k - 1 - _) in *.
  rewrite (ring_interval (2 ^ k) (pos rd) (t - pos rd) i HC) by lia.
  rewrite (ring_interval (2 ^ k) t nw i HC) by lia.
  intros [[_ Ha] [_ Hb]].
  apply (ring_intervals_disjoint (2 ^ k) (pos rd) (t - pos rd) nw i);
    try lia.
  split; [exact Ha |].
  now replace (pos rd + (t - pos rd)) with t by lia.
Qed.

Lemma consistent_reset_iff :
  hstate (word st) = 1 -> readers st <> [] ->
  (hstate (fst (brdct_writer_slice v (word st) k)) = 0 <->
     Forall (fun rd => half_start k (word st) <= pos rd) (readers st)).
Proof.
  intros E1 Hne. rewrite writer_slice_word.
  destruct I as [Ht Hs Hn Hc Hcy Hrd Hw].
  rewrite E1, Z.mul_1_l in Hcy.
  pose proof (crossed_range (half_start k (word st)) (readers st)) as Hcr.
  assert (0 < nreaders (word st)).
  { rewrite Hn. destruct (readers st); [congruence | simpl length; lia]. }
  destruct (Z.eqb_spec (nreaders (word st)) 0) as [E0 | N0]; [lia |].
  destruct (Z.ltb_spec (ncycled (word st)) (nreaders (word st)))
    as [Hlt | Hge]; cbn [orb hstate].
  - split; [lia |]. intros Hall. apply crossed_full in Hall. lia.
  - split; [| reflexivity]. intros _. apply crossed_all. lia.
Qed.

End Consistent.

(** X14 (reader and writer slices share no cell).  In the 64-bit layout
    with a capacity of at most [2^31], in every state reached while [tail]
    is below [2^32], no cell of the array is both in the slice
    [brdct_reader_slice] returns to an attached reader and in the slice
    [brdct_writer_slice] returns. *)
Theorem slices_never_overlap (k : Z) (st : System) (rd : ReaderSt) (i : Z) :
  1 <= k < 32 -> reachable_below wide k st -> In rd (readers st) ->
  ~ (in_slice (brdct_reader_slice wide (word st) k (pos rd)) i /\
     in_slice (snd (brdct_writer_slice wide (word st) k)) i).
Proof.
  intros Hk Hreach.
  assert (HR : reader_bits wide < tail_bits wide) by reflexivity.
  assert (HT : tail_bits wide <= word_bits wide) by discriminate.
  assert (Hceil : Z.shiftr (Z.shiftl 1 15 - 1) (BRDCT_RESIZE wide)
                  = 2 ^ count_bits wide - 1) by reflexivity.
  exact (consistent_disjoint wide k Hk HR HT Hceil st
           (consistent_below_wide k st Hk Hreach) rd i).
Qed.

(** X15 (the writer moves on exactly when every reader has crossed).  In
    the same states, with [hstate == 1] and at least one reader attached,
    [brdct_writer_slice] resets [hstate] exactly when every attached reader
    is in the half-block of [tail], and it then returns at least half the
    capacity. *)
Theorem writer_resets_when_all_crossed (k : Z) (st : System) :
  1 <= k < 32 -> reachable_below wide k st ->
  hstate (word st) = 1 -> readers st <> [] ->
  (hstate (fst (brdct_writer_slice wide (word st) k)) = 0 <->
     Forall (fun rd => half_start k (word st) <= pos rd) (readers st)) /\
  (Forall (fun rd => half_start k (word st) <= pos rd) (readers st) ->
     2 ^ (k - 1) <= len (snd (brdct_writer_slice wide (word st) k))).
Proof.
  intros Hk Hreach E1 Hne.
  pose proof (consistent_below_wide k st Hk Hreach) as I.
  assert (Hiff :
    hstate (fst (brdct_writer_slice wide (word st) k)) = 0 <->
    Forall (fun rd => half_start k (word st) <= pos rd) (readers st))
    by (apply (consistent_reset_iff wide k); assumption).
  split; [exact Hiff |]. intros Hall. apply Hiff in Hall.
  pose proof (c_tail _ _ _ I) as Ht. cbn [reader_bits wide] in Ht.
  assert (H64 : 2 ^ 32 < 2 ^ 64) by reflexivity.
  pose proof (c_hstate _ _ _ I) as Hs.
  destruct (writer_slice_spec wide k (word st)
              ltac:(cbn [word_bits wide]; lia)
              ltac:(cbn [word_bits wide]; lia) ltac:(lia))
    as (_ & _ & _ & _ & Elen).
  rewrite Elen, Hall.
  pose proof (pow2_pos (k - 1) ltac:(lia)) as HH.
  pose proof (pow2_half k ltac:(lia)) as EC.
  pose proof (Z.mod_pos_bound (tail (word st)) _ HH). lia.
Qed.

(** Two states reached on a queue of eight cells while [tail] is below
    [2^32]: one reader on each side of the half-block boundary, and a
    single reader that has crossed it. *)
Lemma two_readers_below :
  reachable_below wide 3
    (mkSystem (mkBroadcast 5 2 1 1) [mkReader 4 None; mkReader 0 None] None).
Proof.
  apply (run_below_reachable wide 3
           [attach_reader; attach_reader; writer_slice; writer_commit 2 0;
            reader_slice 0%nat; reader_commit 0%nat 1 0] start).
  - apply below_start.
  - now vm_compute.
Qed.

Lemma one_reader_below :
  reachable_below wide 3
    (mkSystem (mkBroadcast 5 1 1 1) [mkReader 4 None] None).
Proof.
  apply (run_below_reachable wide 3
           [attach_reader; writer_slice; writer_commit 2 0;
            reader_slice 0%nat; reader_commit 0%nat 1 0] start).
  - apply below_start.
  - now vm_compute.
Qed.

Lemma slices_never_overlap_witness :
  ~ (in_slice (brdct_reader_slice wide (mkBroadcast 5 2 1 1) 3 0) 5 /\
     in_slice (snd (brdct_writer_slice wide (mkBroadcast 5 2 1 1) 3)) 5).
Proof.
  apply (slices_never_overlap 3
           (mkSystem (mkBroadcast 5 2 1 1)
              [mkReader 4 None; mkReader 0 None] None)
           (mkReader 0 None) 5).
  - lia.
  - exact two_readers_below.
  - right. left. reflexivity.
Defined.

Lemma writer_resets_when_all_crossed_witness :
  hstate (fst (brdct_writer_slice wide (mkBroadcast 5 1 1 1) 3)) = 0.
Proof.
  destruct (writer_resets_when_all_crossed 3
              (mkSystem (mkBroadcast 5 1 1 1) [mkReader 4 None] None))
    as [[_ Hreset] _].
  - lia.
  - exact one_reader_below.
  - reflexivity.
  - discriminate.
  - apply Hreset. constructor; [ground | constructor].
Defined.

Lemma safe_below_reader_wrap_witness :
  no_overwrite 64 3
    (mkSystem (mkBroadcast 5 2 1 1) [mkReader 4 None; mkReader 0 None] None)
  /\ census (mkBroadcast 5 2 1 1).
Proof.
  destruct (safe_below_reader_wrap 3
              (mkSystem (mkBroadcast 5 2 1 1)
                 [mkReader 4 None; mkReader 0 None] None))
    as (_ & _ & Hno & Hcensus).
  - lia.
  - exact two_readers_below.
  - split; [exact Hno | exact Hcensus].
Defined.

Lemma writer_commit_all_stays_in_half_witness :
  tail (brdct_writer_commit wide
          (fst (brdct_writer_slice wide (mkBroadcast 5 1 0 1) 3)) 3
          (take_all (snd (brdct_writer_slice wide (mkBroadcast 5 1 0 1) 3))))
  = tail (fst (brdct_writer_slice wide (mkBroadcast 5 1 0 1) 3))
    + len (snd (brdct_writer_slice wide (mkBroadcast 5 1 0 1) 3)).
Proof.
  destruct (writer_commit_all_stays_in_half wide (mkBroadcast 5 1 0 1) 3)
    as (E & _); [ground | ground | ground | ground | reflexivity |].
  exact E.
Defined.

End BrdctFacts.
